(** * iondump: a shallow embedding of [main.go]

    The tool streams a Sneller [.ion.zst] object: [sizeWithoutTrailer]
    measures the payload region, [bvmReader] prepends the ION binary
    version marker, [extract] concatenates the blobs of the outer
    container and [dump] re-encodes the decoded values as text.

    Third-party libraries (minio-go, ion-go, zstd) and the Go standard
    library are not part of the repository.  Their handles are taken as
    interfaces: a type of states with one function per method the code
    calls.  Small in-memory instances of these interfaces are given at
    the end of each module and serve as concrete inputs. *)

From Stdlib.Strings Require Import Byte String.
From Stdlib Require Import ZArith List Bool Lia.
Import ListNotations.
Local Open Scope Z_scope.

(** ** Go values shared by all components *)

Module Go.

(** Go's [error] values, as far as the program tells them apart: the
    two sentinels it compares with [==], the values it makes itself
    with [errors.New], and every other error a library may report. *)
Inductive error : Type :=
| EOF                         (* io.EOF *)
| ErrNoInput                  (* ion.ErrNoInput *)
| ErrorsNew (msg : String.string)   (* errors.New(msg) *)
| ErrLib (code : nat).        (* any other library error *)

Definition error_eqb (a b : error) : bool :=
  match a, b with
  | EOF, EOF => true
  | ErrNoInput, ErrNoInput => true
  | ErrorsNew s, ErrorsNew t => String.eqb s t
  | ErrLib m, ErrLib n => Nat.eqb m n
  | _, _ => false
  end.

(** [int] and [int64] are 64-bit two's-complement integers. *)
Definition wrap64 (z : Z) : Z := (z + 2 ^ 63) mod 2 ^ 64 - 2 ^ 63.

Definition add64 (a b : Z) : Z := wrap64 (a + b).
Definition sub64 (a b : Z) : Z := wrap64 (a - b).

Definition in_int64 (z : Z) : Prop := - 2 ^ 63 <= z < 2 ^ 63.

(** [len(p)] *)
Definition len {A} (p : list A) : Z := Z.of_nat (length p).

(** [s[lo:hi]] on a slice or array whose capacity is its length; [None]
    is the run-time panic "slice bounds out of range". *)
Definition slice {A} (s : list A) (lo hi : Z) : option (list A) :=
  if (0 <=? lo) && (lo <=? hi) && (hi <=? len s)
  then Some (firstn (Z.to_nat (hi - lo)) (skipn (Z.to_nat lo) s))
  else None.

(** [s[lo:]] *)
Definition slice_from {A} (s : list A) (lo : Z) : option (list A) :=
  slice s lo (len s).

(** [copy(dst, src)]: the contents of [dst] afterwards and the number
    of elements copied, the smaller of the two lengths. *)
Definition copy {A} (dst src : list A) : list A * Z :=
  let k := Nat.min (length dst) (length src) in
  (firstn k src ++ skipn k dst, Z.of_nat k).

(** What a [Read] or [ReadAt] call leaves behind: the bytes it stored
    from the start of the buffer it was handed, and the count [n] and
    the error [err] it returns. *)
Record ioResult : Type := mkIO {
  io_buf : list byte;
  io_n : Z;
  io_err : option error
}.

(** A callee writes into the caller's slice and cannot change its
    length: [written p res] is the slice [p] once the call has
    returned. *)
Definition written (p : list byte) (res : ioResult) : list byte :=
  firstn (length p) (io_buf res ++ skipn (length (io_buf res)) p).

(** The bytes a call reports to its caller: [p[:n]]. *)
Definition reported (res : ioResult) : list byte :=
  firstn (Z.to_nat (io_n res)) (io_buf res).

End Go.

Import Go.

(** ** TrailerSizer: [sizeWithoutTrailer] *)

Module Trailer.

(** [uint32(b)] for a byte [b]. *)
Definition u8 (b : byte) : Z := Z.of_N (Byte.to_N b).

(** [binary.LittleEndian.Uint32(b)]; [None] is the index panic on a
    slice shorter than four bytes. *)
Definition Uint32 (b : list byte) : option Z :=
  match b with
  | b0 :: b1 :: b2 :: b3 :: _ =>
      Some (Z.lor (Z.lor (Z.lor (u8 b0) (Z.shiftl (u8 b1) 8))
                         (Z.shiftl (u8 b2) 16))
                  (Z.shiftl (u8 b3) 24))
  | _ => None
  end.

(** The object handle [*minio.Object], reduced to the two methods the
    function calls.  [Stat] gives [stat.Size] (an [int64]) or an error;
    [ReadAt data off] gives the state of [data] after the call, the
    byte count and the error. *)
Record Object : Type := mkObject {
  Stat : Z + error;
  ReadAt : list byte -> Z -> ioResult
}.

(** A Go function that either returns [(int64, error)] or leaves the
    process through [exit], which prints the error and calls
    [os.Exit(1)]. *)
Inductive outcome : Type :=
| Exited (e : error)
| Returned (size : Z) (err : option error)
| Panicked.

Definition make4 : list byte := repeat Byte.x00 4.

(** [sizeWithoutTrailer]; the argument is the result of
    [client.GetObject]. *)
Definition sizeWithoutTrailer (got : Object + error) : outcome :=
  match got with
  | inr err => Exited err
  | inl obj =>
      match Stat obj with
      | inr err => Returned (-1) (Some err)
      | inl size =>
          let data := make4 in
          let res := ReadAt obj data (sub64 size 4) in
          let data := written data res in
          let decode :=
            match Uint32 data with
            | None => Panicked
            | Some offset => Returned (sub64 (sub64 size offset) 4) None
            end in
          match io_err res with
          | Some err =>
              if negb (error_eqb err EOF) then Returned (-1) (Some err)
              else decode
          | None => decode
          end
      end
  end.

(** An object held in memory, read the way an object-store handle
    answers [ReadAt]: no bytes and [io.EOF] for an offset outside the
    object, otherwise as many bytes as fit, with [io.EOF] as soon as the
    read reaches the end of the object. *)
Definition memReadAt (content : list byte) (p : list byte) (off : Z) : ioResult :=
  if (off <? 0) || (len content <=? off) then mkIO p 0 (Some EOF)
  else
    let avail := skipn (Z.to_nat off) content in
    let '(p', k) := copy p avail in
    mkIO p' k (if len content <=? off + k then Some EOF else None).

Definition memObject (content : list byte) : Object :=
  mkObject (inl (len content)) (memReadAt content).

(** [byte(z)] for [z] between 0 and 255. *)
Definition byteOf (z : Z) : byte :=
  match Byte.of_N (Z.to_N z) with
  | Some b => b
  | None => Byte.x00
  end.

(** The four trailing bytes that store [offset], least significant
    byte first, as [binary.LittleEndian.PutUint32] lays them out. *)
Definition le32 (offset : Z) : list byte :=
  [byteOf (Z.land (Z.shiftr offset 0) 255);
   byteOf (Z.land (Z.shiftr offset 8) 255);
   byteOf (Z.land (Z.shiftr offset 16) 255);
   byteOf (Z.land (Z.shiftr offset 24) 255)].

(** A call has failed when the process exited or a non-nil error came
    back. *)
Definition fails (o : outcome) : Prop :=
  match o with
  | Exited _ => True
  | Returned _ (Some _) => True
  | Returned _ None => False
  | Panicked => False
  end.

(** Eight bytes whose last four store the offset 100. *)
Definition beyond : Object :=
  memObject ([Byte.x01; Byte.x02; Byte.x03; Byte.x04] ++ le32 100).

(** Eight bytes whose last four store the offset 3. *)
Definition within : Object :=
  memObject ([Byte.x01; Byte.x02; Byte.x03; Byte.x04] ++ le32 3).

(** A handle of a 600-byte object whose [ReadAt] stores two bytes only
    and returns [io.EOF]. *)
Definition truncated : Object :=
  mkObject (inl 600) (fun _ _ => mkIO [Byte.x02; Byte.x01] 2 (Some EOF)).

End Trailer.

(** ** HeaderSynthesizer: [bvmReader] *)

Module BVM.

(** [var bvm = [...]byte{0xE0, 0x01, 0x00, 0xEA}] *)
Definition bvm : list byte := [Byte.xe0; Byte.x01; Byte.x00; Byte.xea].

Section Reader.

(** The wrapped [io.Reader]: a state and its [Read] method, which is
    handed the contents of the buffer. *)
Variable S : Type.
Variable srcRead : S -> list byte -> ioResult * S.

(** [r.r.Read(p)] as the caller sees it: [p] afterwards, [n], [err]. *)
Definition call (s : S) (p : list byte) : ioResult * S :=
  let '(res, s') := srcRead s p in
  (mkIO (written p res) (io_n res) (io_err res), s').

(** [type bvmReader struct { r io.Reader; n int }] *)
Record bvmReader : Type := mkBVM { r : S; n : Z }.

(** [func (r *bvmReader) Read(p []byte) (n int, err error)]; [None]
    is a slice-bounds panic. *)
Definition Read (rd : bvmReader) (p : list byte)
  : option (ioResult * bvmReader) :=
  if n rd <? 4 then
    let n0 := len p in
    let n1 := if n0 >? sub64 4 (n rd) then sub64 4 (n rd) else n0 in
    match slice bvm (n rd) (add64 (n rd) n1) with
    | None => None
    | Some src =>
        (* r.n += copy(p, bvm[r.n:r.n+n]) *)
        let '(p1, c) := copy p src in
        let rd1 := mkBVM (r rd) (add64 (n rd) c) in
        if n1 =? len p then Some (mkIO p1 n1 None, rd1)
        else
          match slice_from p1 n1 with
          | None => None
          | Some rest =>
              (* nr, err := r.r.Read(p[n:]), which writes into p *)
              let '(res, s') := call (r rd1) rest in
              let p2 := firstn (Z.to_nat n1) p1 ++ io_buf res in
              let rd2 := mkBVM s' (n rd1) in
              match io_err res with
              | Some err => Some (mkIO p2 0 (Some err), rd2)
              | None => Some (mkIO p2 (add64 n1 (io_n res)) None, rd2)
              end
          end
    end
  else
    let '(res, s') := call (r rd) p in
    Some (res, mkBVM s' (n rd)).

(** [func newBVMReader(input io.Reader) *bvmReader] *)
Definition newBVMReader (input : S) : bvmReader := mkBVM input 0.

(** A caller in the manner of [io.Reader] clients: it reads into a
    fresh buffer of each given size in turn, keeps the bytes each call
    reports, and stops at the first call that returns an error. *)
Fixpoint readAll (sizes : list nat) (rd : bvmReader) (acc : list byte)
  : option (list byte * option error * bvmReader) :=
  match sizes with
  | [] => Some (acc, None, rd)
  | k :: sizes' =>
      match Read rd (repeat Byte.x00 k) with
      | None => None
      | Some (res, rd') =>
          let acc' := acc ++ reported res in
          match io_err res with
          | Some err => Some (acc', Some err, rd')
          | None => readAll sizes' rd' acc'
          end
      end
  end.

(** The reader after a series of [Read] calls on the given buffers. *)
Fixpoint after (ps : list (list byte)) (rd : bvmReader) : option bvmReader :=
  match ps with
  | [] => Some rd
  | p :: ps' =>
      match Read rd p with
      | None => None
      | Some (_, rd') => after ps' rd'
      end
  end.

End Reader.

Arguments mkBVM {S} _ _.
Arguments r {S} _.
Arguments n {S} _.
Arguments call {S} _ _ _.
Arguments Read {S} _ _ _.
Arguments newBVMReader {S} _.
Arguments readAll {S} _ _ _ _.
Arguments after {S} _ _ _.

(** A source over a byte string held in memory, like [bytes.Reader]:
    it reports [io.EOF] only by a read that returns no bytes. *)
Definition bytesRead (s : list byte) (p : list byte) : ioResult * list byte :=
  match s with
  | [] => (mkIO p 0 (Some EOF), [])
  | _ :: _ =>
      let '(p', k) := copy p s in
      (mkIO p' k None, skipn (Z.to_nat k) s)
  end.

(** A source that hands out its bytes and returns the error [e]
    together with the last of them, as [io.Reader] allows. *)
Definition endRead (e : error) (s : list byte) (p : list byte)
  : ioResult * list byte :=
  let '(p', k) := copy p s in
  (mkIO p' k (if len s <=? len p then Some e else None),
   skipn (Z.to_nat k) s).

(** [len(p)] is an [int]: a buffer of [k] bytes exists only for [k]
    below [2^63]. *)
Definition fits (k : nat) : bool := Z.of_nat k <? 2 ^ 63.

(** Does a read straddle the marker boundary, when [m] marker bytes
    have been emitted and the reads have the given buffer sizes? *)
Fixpoint straddles (m : nat) (sizes : list nat) : bool :=
  match sizes with
  | [] => false
  | k :: sizes' =>
      if (m <? 4)%nat
      then if (4 - m <? k)%nat then true else straddles (m + k) sizes'
      else false
  end.

(** Three bytes of source content. *)
Definition content3 : list byte := [Byte.x11; Byte.x12; Byte.x13].

(** Chunking invariance as a test would put it: a caller that has read
    the stream over the source content [content] to its end, with
    whatever buffer sizes, holds the marker followed by [content]. *)
Definition chunking_invariant (content : list byte) (sizes : list nat) : Prop :=
  forall out err rd',
    readAll bytesRead sizes (newBVMReader content) [] = Some (out, Some err, rd') ->
    out = bvm ++ content.

End BVM.

(** ** EnvelopeExtractor: [extract] *)

Module Extract.

(** [ion.Type] *)
Inductive ionType : Type :=
| NoType | NullType | BoolType | IntType | FloatType | DecimalType
| TimestampType | SymbolType | StringType | ClobType | BlobType
| ListType | SexpType | StructType.

Definition ionType_eqb (a b : ionType) : bool :=
  match a, b with
  | NoType, NoType | NullType, NullType | BoolType, BoolType
  | IntType, IntType | FloatType, FloatType | DecimalType, DecimalType
  | TimestampType, TimestampType | SymbolType, SymbolType
  | StringType, StringType | ClobType, ClobType | BlobType, BlobType
  | ListType, ListType | SexpType, SexpType | StructType, StructType => true
  | _, _ => false
  end.

Definition errUnexpectedToken : error := ErrorsNew "unexpected token type"%string.

Section Extract.

(** The [ion.Reader] made by [ion.NewReader(in)] and the [io.Writer]
    [out], with the methods [extract] calls. *)
Variables R W : Type.
Variable Next : R -> bool * R.
Variable Type' : R -> ionType.
Variable ByteValue : R -> list byte * option error.
Variable Write : W -> list byte -> (Z * option error) * W.

(** [func extract(in io.Reader, out io.Writer) error]; the loop runs
    at most [fuel] times, [None] meaning the fuel ran out. *)
Fixpoint extract (fuel : nat) (rd : R) (out : W)
  : option (option error * R * W) :=
  match fuel with
  | O => None
  | Datatypes.S fuel' =>
      let '(more, rd) := Next rd in
      if more then
        let t := Type' rd in
        if negb (ionType_eqb t BlobType)
        then Some (Some errUnexpectedToken, rd, out)
        else
          let '(val, err) := ByteValue rd in
          match err with
          | Some err => Some (Some err, rd, out)
          | None =>
              let '((_, err), out) := Write out val in
              match err with
              | Some err => Some (Some err, rd, out)
              | None => extract fuel' rd out
              end
          end
      else Some (None, rd, out)
  end.

(** The writer after [Write] calls on the given values in turn, up to
    and including the first that returns an error. *)
Fixpoint writeAll (out : W) (vals : list (list byte)) : option error * W :=
  match vals with
  | [] => (None, out)
  | val :: vals' =>
      let '((_, err), out') := Write out val in
      match err with
      | Some err => (Some err, out')
      | None => writeAll out' vals'
      end
  end.

(** [items rd its rd']: from [rd], [Next] succeeds once per element
    of [its], showing its type and byte value, and then returns
    false, leaving the reader [rd']. *)
Inductive items : R -> list (ionType * (list byte * option error)) -> R -> Prop :=
| items_end : forall rd rd',
    Next rd = (false, rd') -> items rd [] rd'
| items_next : forall rd rd1 its rd',
    Next rd = (true, rd1) ->
    items rd1 its rd' ->
    items rd ((Type' rd1, ByteValue rd1) :: its) rd'.

End Extract.

Arguments extract {R W} _ _ _ _ _ _ _.
Arguments writeAll {W} _ _ _.
Arguments items {R} _ _ _ _ _ _.

(** A reader that plays back a list of values and then stops, cleanly
    or with the error it keeps for [Err]. *)
Record script : Type := mkScript {
  pending : list (ionType * (list byte * option error));
  ending : option error;
  current : option (ionType * (list byte * option error));
  failure : option error
}.

Definition scriptNext (s : script) : bool * script :=
  match pending s with
  | it :: rest => (true, mkScript rest (ending s) (Some it) None)
  | [] => (false, mkScript [] (ending s) None (ending s))
  end.

Definition scriptType (s : script) : ionType :=
  match current s with
  | Some it => fst it
  | None => NoType
  end.

Definition scriptByteValue (s : script) : list byte * option error :=
  match current s with
  | Some it => snd it
  | None => ([], Some (ErrLib 0))
  end.

(** [r.Err()], which [ion.Reader] offers to tell why [Next] stopped. *)
Definition scriptErr (s : script) : option error := failure s.

Definition blob (b : list byte) : ionType * (list byte * option error) :=
  (BlobType, (b, None)).

Definition openScript (its : list (ionType * (list byte * option error)))
  (fin : option error) : script :=
  mkScript its fin None None.

(** A writer that appends to a buffer in memory, like [bytes.Buffer]. *)
Definition bufWrite (w : list byte) (val : list byte)
  : (Z * option error) * list byte :=
  ((len val, None), w ++ val).

(** A writer with room for [cap] bytes that refuses a write it cannot
    hold, as a closed pipe or a full disk would. *)
Definition capWrite (cap : nat) (w : list byte) (val : list byte)
  : (Z * option error) * list byte :=
  if (length w + length val <=? cap)%nat
  then ((len val, None), w ++ val)
  else ((0, Some (ErrLib 1)), w).

End Extract.

(** ** TextRenderer: [dump] *)

Module Dump.

Section Dump.

(** The values, the [ion.Decoder] and the [ion.Encoder]. *)
Variables V D E : Type.
Variable Decode : D -> (V + error) * D.
Variable Encode : E -> V -> option error * E.
Variable Finish : E -> option error * E.

(** The calls [dump] makes on the encoder, in order. *)
Inductive encCall : Type :=
| CallEncode (val : V)
| CallFinish.

(** [func dump(in io.Reader, out io.Writer) error], with the calls
    made on the encoder so far threaded through; the loop runs at
    most [fuel] times. *)
Fixpoint dump (fuel : nat) (dec : D) (enc : E) (calls : list encCall)
  : option (option error * D * E * list encCall) :=
  match fuel with
  | O => None
  | Datatypes.S fuel' =>
      let '(res, dec) := Decode dec in
      match res with
      | inr err =>
          if error_eqb err ErrNoInput then
            let '(ferr, enc) := Finish enc in
            Some (ferr, dec, enc, calls ++ [CallFinish])
          else Some (Some err, dec, enc, calls)
      | inl val =>
          let '(eerr, enc) := Encode enc val in
          let calls := calls ++ [CallEncode val] in
          match eerr with
          | Some err => Some (Some err, dec, enc, calls)
          | None => dump fuel' dec enc calls
          end
      end
  end.

(** [decodes dec vals err dec']: from [dec], [Decode] returns the
    values [vals] in turn and then the error [err]. *)
Inductive decodes : D -> list V -> error -> D -> Prop :=
| decodes_stop : forall dec err dec',
    Decode dec = (inr err, dec') -> decodes dec [] err dec'
| decodes_value : forall dec val dec1 vals err dec',
    Decode dec = (inl val, dec1) ->
    decodes dec1 vals err dec' ->
    decodes dec (val :: vals) err dec'.

(** The encoder after encoding [vals] in turn, if every [Encode]
    succeeds. *)
Fixpoint encodeAll (enc : E) (vals : list V) : option E :=
  match vals with
  | [] => Some enc
  | val :: vals' =>
      match Encode enc val with
      | (None, enc') => encodeAll enc' vals'
      | (Some _, _) => None
      end
  end.

Definition isFinish (c : encCall) : bool :=
  match c with
  | CallFinish => true
  | CallEncode _ => false
  end.

End Dump.

Arguments CallEncode {V} _.
Arguments CallFinish {V}.
Arguments dump {V D E} _ _ _ _ _ _ _.
Arguments decodes {V D} _ _ _ _ _.
Arguments encodeAll {V E} _ _ _.
Arguments isFinish {V} _.

(** A decoder that plays back a list of results and reports
    [ion.ErrNoInput] when the list is used up. *)
Definition scriptDecode {V} (s : list (V + error)) : (V + error) * list (V + error) :=
  match s with
  | res :: rest => (res, rest)
  | [] => (inr ErrNoInput, [])
  end.

(** An encoder that records what it is given; [Finish] closes it. *)
Definition logEncode {V} (e : list V * bool) (val : V) : option error * (list V * bool) :=
  (None, (fst e ++ [val], snd e)).

Definition logFinish {V} (e : list V * bool) : option error * (list V * bool) :=
  (None, (fst e, true)).

End Dump.

(** ** Command line and start-up: [s3split] and [main] *)

Module Args.

(** A Go string is a sequence of bytes; [str] gives the bytes of a
    literal. *)
Definition str (s : string) : list byte := list_byte_of_string s.

(** [a == b] on strings. *)
Fixpoint bytes_eqb (a b : list byte) : bool :=
  match a, b with
  | [], [] => true
  | x :: a', y :: b' => Byte.eqb x y && bytes_eqb a' b'
  | _, _ => false
  end.

(** [strings.HasPrefix]: [len(s) >= len(prefix) && s[:len(prefix)] == prefix] *)
Definition HasPrefix (s prefix : list byte) : bool :=
  (length prefix <=? length s)%nat
  && bytes_eqb (firstn (length prefix) s) prefix.

(** [strings.TrimPrefix] *)
Definition TrimPrefix (s prefix : list byte) : list byte :=
  if HasPrefix s prefix then skipn (length prefix) s else s.

(** [strings.HasSuffix]: [len(s) >= len(suffix) && s[len(s)-len(suffix):] == suffix] *)
Definition HasSuffix (s suffix : list byte) : bool :=
  (length suffix <=? length s)%nat
  && bytes_eqb (skipn (length s - length suffix) s) suffix.

(** [strings.IndexByte]: the index of the first [c] in [s], or -1. *)
Fixpoint IndexByte (s : list byte) (c : byte) : Z :=
  match s with
  | [] => -1
  | b :: s' =>
      if Byte.eqb b c then 0
      else
        let i := IndexByte s' c in
        if i <? 0 then -1 else i + 1
  end.

(** The byte ['/']. *)
Definition slash : byte := Byte.x2f.

(** What a call of [s3split] comes to: it leaves the process through
    [exit(fmt.Errorf("invalid s3 path spec %q", out))], it returns
    [(bucket, object)], or a slice expression panics. *)
Inductive splitting : Type :=
| Invalid (out : list byte)
| Split (bucket object : list byte)
| SplitPanic.

(** [func s3split(name string) (string, string)] *)
Definition s3split (name : list byte) : splitting :=
  let out := TrimPrefix name (str "s3://") in
  let split := IndexByte out slash in
  if (split =? -1) || (split =? len out) then Invalid out
  else
    match slice out 0 split, slice_from out (add64 split 1) with
    | Some bucket, Some object => Split bucket object
    | _, _ => SplitPanic
    end.

End Args.

(** ** The input stream of [main] *)

Module Stream.
Import Trailer BVM Args.

Section Limited.

(** The reader [R] under an [io.LimitedReader]. *)
Variable S : Type.
Variable srcRead : S -> list byte -> ioResult * S.

(** [type LimitedReader struct { R Reader; N int64 }] *)
Record LimitedReader : Type := mkLimited { R : S; N : Z }.

(** [func (l *LimitedReader) Read(p []byte) (n int, err error)] of
    package [io]: nothing and [io.EOF] once [N <= 0], otherwise one
    read of [R] into at most the first [N] bytes of [p], which is
    taken off [N]. *)
Definition limitedRead (l : LimitedReader) (p : list byte)
  : ioResult * LimitedReader :=
  if N l <=? 0 then (mkIO [] 0 (Some EOF), l)
  else
    let q := if len p >? N l then firstn (Z.to_nat (N l)) p else p in
    let '(res, s') := call srcRead (R l) q in
    (res, mkLimited s' (sub64 (N l) (io_n res))).

End Limited.

Arguments mkLimited {S} _ _.
Arguments R {S} _.
Arguments N {S} _.
Arguments limitedRead {S} _ _ _.

Section Main.

(** The object store as [main] uses it: [minio.New] makes a client
    from the endpoint and the credentials found under the home
    directory, and [client.GetObject] opens an object, which answers
    [Stat] and [ReadAt] and is read in sequence from a state in [S]. *)
Variable S : Type.
Variable Client : Type.
Variable UserHomeDir : list byte + error.
Variable New : list byte -> list byte -> Client + error.
Variable GetObject : Client -> list byte -> list byte -> (Object * S) + error.

(** How [main] stands when its three goroutines are about to start:
    it has printed the usage and exited, it has exited through
    [s3split] or through [exit(err)], a slice expression has panicked,
    or [inputWithBVM] is ready for [extract]. *)
Inductive setup : Type :=
| UsageExit
| InvalidPath (out : list byte)
| ExitWith (err : error)
| SetupPanic
| Streaming (endpoint bucket object : list byte)
    (inputWithBVM : bvmReader (LimitedReader S)).

Definition only_handle (got : (Object * S) + error) : Object + error :=
  match got with
  | inl (obj, _) => inl obj
  | inr err => inr err
  end.

(** [func main()], from [flag.Parse()] to [newBVMReader]; [dashe] and
    [dashf] are the values of the flags [-e] and [-f]. *)
Definition main (dashe dashf : list byte) : setup :=
  if bytes_eqb dashe [] || bytes_eqb dashf [] then UsageExit
  else
    match s3split dashf with
    | Invalid out => InvalidPath out
    | SplitPanic => SetupPanic
    | Split bucket object =>
        if bytes_eqb bucket []
        then ExitWith (ErrorsNew "no valid bucket specified")
        else if negb (HasSuffix object (str ".ion.zst"))
                && negb (HasSuffix object (str ".10n.zst"))
        then ExitWith (ErrorsNew "no valid '.ion.zst' object specified")
        else
          match UserHomeDir with
          | inr err => ExitWith err
          | inl home =>
              match New dashe home with
              | inr err => ExitWith err
              | inl client =>
                  match sizeWithoutTrailer
                          (only_handle (GetObject client bucket object)) with
                  | Exited err => ExitWith err
                  | Panicked => SetupPanic
                  | Returned _ (Some err) => ExitWith err
                  | Returned size None =>
                      match GetObject client bucket object with
                      | inr err => ExitWith err
                      | inl (_, obj) =>
                          let inputWithoutTrailer := mkLimited obj size in
                          Streaming dashe bucket object
                            (newBVMReader inputWithoutTrailer)
                      end
                  end
              end
          end
    end.

End Main.

Arguments UsageExit {S}.
Arguments InvalidPath {S} _.
Arguments ExitWith {S} _.
Arguments SetupPanic {S}.
Arguments Streaming {S} _ _ _ _.
Arguments main {S Client} _ _ _ _ _.

(** An object store in memory: one object, whatever the names, opened
    without error. *)
Definition memGetObject (content : list byte) (_ : unit) (_ _ : list byte)
  : (Object * list byte) + error :=
  inl (memObject content, content).

Definition memNew (_ _ : list byte) : unit + error := inl tt.

(** An object as the format lays it out: the payload, the trailer, and
    the length of the trailer in four bytes. *)
Definition layout (payload trailer : list byte) : list byte :=
  payload ++ trailer ++ le32 (len trailer).

(** An object of two payload bytes and three trailer bytes. *)
Definition stored : list byte :=
  layout [Byte.x11; Byte.x12] [Byte.x21; Byte.x22; Byte.x23].

End Stream.

(** ** An encoder that refuses a value *)

Module Encoders.

(** An encoder that records what it is given, except the value [bad],
    which it refuses. *)
Definition pickyEncode (bad : nat) (e : list nat * bool) (val : nat)
  : option error * (list nat * bool) :=
  if Nat.eqb val bad then (Some (ErrLib 4), e)
  else (None, (fst e ++ [val], snd e)).

End Encoders.

(** ** Sources that deliver a content *)

Module Served.
Import BVM.

Section Run.

Variable S : Type.
Variable srcRead : S -> list byte -> ioResult * S.

(** Does the run of [readAll] end with an error returned by a [Read]
    that began with the marker not yet used up?  Reads that stay inside
    the marker return no error, so such an error comes from the read of
    the wrapped source inside a [Read] that straddles the end of the
    marker. *)
Fixpoint boundary_error (sizes : list nat) (rd : bvmReader S) : bool :=
  match sizes with
  | [] => false
  | k :: sizes' =>
      match Read srcRead rd (repeat Byte.x00 k) with
      | None => false
      | Some (res, rd') =>
          match io_err res with
          | Some _ => n rd <? 4
          | None => boundary_error sizes' rd'
          end
      end
  end.

(** [serving serves]: a source in a state [s] with [serves s c] has the
    content [c] still to deliver.  Each read stores some [k] bytes from
    the front of [c], as many as it likes up to the length of the
    buffer, returns the count [k], and is left with the rest to
    deliver; it returns an error only together with, or after, the
    last byte of [c]. *)
Definition serving (serves : S -> list byte -> Prop) : Prop :=
  forall s c p,
    serves s c ->
    exists k,
      (k <= length p)%nat /\ (k <= length c)%nat /\
      io_n (fst (call srcRead s p)) = Z.of_nat k /\
      firstn k (io_buf (fst (call srcRead s p))) = firstn k c /\
      serves (snd (call srcRead s p)) (skipn k c) /\
      (io_err (fst (call srcRead s p)) <> None -> k = length c).

(** [progressing serves]: while content is left, a read into a buffer
    that is not empty returns at least one byte. *)
Definition progressing (serves : S -> list byte -> Prop) : Prop :=
  forall s c p,
    serves s c -> c <> [] -> p <> [] ->
    0 < io_n (fst (call srcRead s p)).

End Run.

Arguments boundary_error {S} _ _ _.
Arguments serving {S} _ _.
Arguments progressing {S} _ _.

(** The number of reads with a buffer that is not empty. *)
Definition nonempty_reads (sizes : list nat) : nat :=
  length (filter (fun k => (0 <? k)%nat) sizes).

(** A source over a byte string held in memory that gives one byte to
    each read, and [io.EOF] with no byte once the string is used up. *)
Definition oneRead (s : list byte) (p : list byte) : ioResult * list byte :=
  match s, p with
  | [], _ => (mkIO [] 0 (Some EOF), [])
  | _ :: _, [] => (mkIO [] 0 None, s)
  | b :: s', _ :: _ => (mkIO [b] 1 None, s')
  end.

End Served.

(** * Properties *)

(** ** Arithmetic and slices *)

Module GoFacts.

Lemma wrap64_small (z : Z) : in_int64 z -> wrap64 z = z.
Proof.
  unfold in_int64, wrap64. intros Hz.
  rewrite Z.mod_small; lia.
Qed.

Lemma wrap64_range (z : Z) : in_int64 (wrap64 z).
Proof.
  unfold in_int64, wrap64.
  pose proof (Z.mod_pos_bound (z + 2 ^ 63) (2 ^ 64) ltac:(lia)). lia.
Qed.

Lemma sub64_small (a b : Z) : in_int64 (a - b) -> sub64 a b = a - b.
Proof. apply wrap64_small. Qed.

Lemma add64_small (a b : Z) : in_int64 (a + b) -> add64 a b = a + b.
Proof. apply wrap64_small. Qed.

Lemma skipn_repeat_sub {A} (x : A) (k m : nat) :
  skipn k (repeat x m) = repeat x (m - k).
Proof.
  revert k. induction m as [|m IH]; intros [|k]; cbn; auto.
Qed.

Lemma written_length (p : list byte) (res : ioResult) :
  length (written p res) = length p.
Proof.
  unfold written.
  rewrite length_firstn, length_app, length_skipn. lia.
Qed.

Lemma written_same (p q : list byte) (k : Z) (e : option error) :
  length q = length p -> written p (mkIO q k e) = q.
Proof.
  intros Hlen. unfold written. cbn [io_buf].
  rewrite Hlen, skipn_all, app_nil_r, <- Hlen. apply firstn_all.
Qed.

Lemma copy_length {A} (dst src : list A) :
  length (fst (copy dst src)) = length dst.
Proof.
  unfold copy. cbn [fst].
  rewrite length_app, length_firstn, length_skipn. lia.
Qed.

Lemma slice_inside {A} (s : list A) (lo hi : Z) :
  0 <= lo <= hi -> hi <= len s ->
  slice s lo hi = Some (firstn (Z.to_nat (hi - lo)) (skipn (Z.to_nat lo) s)).
Proof.
  intros [Hlo Hhi] Hlen. unfold slice.
  destruct (Z.leb_spec 0 lo); [|lia].
  destruct (Z.leb_spec lo hi); [|lia].
  destruct (Z.leb_spec hi (len s)); [|lia].
  reflexivity.
Qed.

Lemma copy_fits {A} (dst src : list A) :
  (length src <= length dst)%nat ->
  copy dst src = (src ++ skipn (length src) dst, len src).
Proof.
  intros Hle. unfold copy, len.
  rewrite Nat.min_r by exact Hle.
  rewrite firstn_all. reflexivity.
Qed.

Lemma error_eqb_refl (e : error) : error_eqb e e = true.
Proof.
  destruct e; cbn; auto using String.eqb_refl, Nat.eqb_refl.
Qed.

Lemma error_eqb_eq (a b : error) : error_eqb a b = true <-> a = b.
Proof.
  split.
  - destruct a, b; cbn; intros H; try discriminate; auto.
    + apply String.eqb_eq in H. now subst.
    + apply Nat.eqb_eq in H. now subst.
  - intros ->. apply error_eqb_refl.
Qed.

Lemma error_eqb_neq (a b : error) : error_eqb a b = false <-> a <> b.
Proof.
  rewrite <- error_eqb_eq. destruct (error_eqb a b); split; congruence.
Qed.

End GoFacts.

(** ** TrailerSizer *)

Module TrailerSpec.
Import Trailer GoFacts.

Lemma u8_range (b : byte) : 0 <= u8 b < 2 ^ 8.
Proof.
  unfold u8. pose proof (Byte.to_N_bounded b). lia.
Qed.

Lemma lor_below (a b n : Z) :
  0 < n -> 0 <= a < 2 ^ n -> 0 <= b < 2 ^ n -> 0 <= Z.lor a b < 2 ^ n.
Proof.
  intros Hn Ha Hb.
  assert (Hnn : 0 <= Z.lor a b) by (apply Z.lor_nonneg; lia).
  split; [exact Hnn|].
  destruct (Z.eq_dec (Z.lor a b) 0) as [-> | Hne]; [lia|].
  apply Z.log2_lt_pow2; [lia|].
  rewrite Z.log2_lor by lia.
  apply Z.max_lub_lt.
  - destruct (Z.eq_dec a 0) as [-> | ?]; [cbn; lia|].
    apply Z.log2_lt_pow2; lia.
  - destruct (Z.eq_dec b 0) as [-> | ?]; [cbn; lia|].
    apply Z.log2_lt_pow2; lia.
Qed.

Lemma shifted_below (x k n : Z) :
  0 <= k -> 0 <= x < 2 ^ 8 -> k + 8 <= n -> 0 <= Z.shiftl x k < 2 ^ n.
Proof.
  intros Hk Hx Hkn.
  rewrite Z.shiftl_mul_pow2 by lia.
  assert (0 < 2 ^ k) by (apply Z.pow_pos_nonneg; lia).
  assert (2 ^ (k + 8) <= 2 ^ n) by (apply Z.pow_le_mono_r; lia).
  rewrite Z.pow_add_r in * by lia.
  nia.
Qed.

(** The decoded offset is an unsigned 32-bit number. *)
Lemma Uint32_range (b : list byte) (x : Z) :
  Uint32 b = Some x -> 0 <= x < 2 ^ 32.
Proof.
  destruct b as [|b0 [|b1 [|b2 [|b3 rest]]]]; cbn [Uint32]; try discriminate.
  intros [= <-].
  pose proof (u8_range b0). pose proof (u8_range b1).
  pose proof (u8_range b2). pose proof (u8_range b3).
  assert (H8 : 0 <= u8 b0 < 2 ^ 32) by lia.
  assert (H16 : 0 <= Z.shiftl (u8 b1) 8 < 2 ^ 32) by (apply shifted_below; lia).
  assert (H24 : 0 <= Z.shiftl (u8 b2) 16 < 2 ^ 32) by (apply shifted_below; lia).
  assert (H32 : 0 <= Z.shiftl (u8 b3) 24 < 2 ^ 32) by (apply shifted_below; lia).
  apply lor_below; [lia| |exact H32].
  apply lor_below; [lia| |exact H24].
  apply lor_below; [lia|exact H8|exact H16].
Qed.

(** A buffer of four bytes always decodes. *)
Lemma Uint32_four (b : list byte) :
  length b = 4%nat -> exists x, Uint32 b = Some x.
Proof.
  destruct b as [|b0 [|b1 [|b2 [|b3 [|? ?]]]]]; cbn; try discriminate.
  intros _. eexists. reflexivity.
Qed.

(** What the function does once [Stat] has answered and [ReadAt] has
    returned [nil] or [io.EOF]. *)
Lemma sizeWithoutTrailer_decodes (obj : Object) (size offset : Z) :
  Stat obj = inl size ->
  (io_err (ReadAt obj make4 (sub64 size 4)) = None \/
   io_err (ReadAt obj make4 (sub64 size 4)) = Some EOF) ->
  Uint32 (written make4 (ReadAt obj make4 (sub64 size 4))) = Some offset ->
  sizeWithoutTrailer (inl obj) = Returned (sub64 (sub64 size offset) 4) None.
Proof.
  intros Hstat Herr Hoff. unfold sizeWithoutTrailer.
  rewrite Hstat. cbv zeta. rewrite Hoff.
  destruct Herr as [-> | ->]; reflexivity.
Qed.

(** The buffer has four bytes whatever [ReadAt] did, so the decoding
    never runs past its end. *)
Lemma sizeWithoutTrailer_no_panic (got : Object + error) :
  sizeWithoutTrailer got <> Panicked.
Proof.
  destruct got as [obj | err]; cbn [sizeWithoutTrailer]; [|discriminate].
  destruct (Stat obj) as [size | err]; [|discriminate].
  cbv zeta.
  destruct (Uint32_four (written make4 (ReadAt obj make4 (sub64 size 4))))
    as [offset ->]; [now rewrite written_length|].
  destruct (io_err _) as [err|]; [|discriminate].
  destruct (negb _); discriminate.
Qed.

(** *** Objects held in memory *)

Lemma u8_byteOf (z : Z) : 0 <= z < 256 -> u8 (byteOf z) = z.
Proof.
  intros Hz. unfold u8, byteOf.
  destruct (Byte.of_N (Z.to_N z)) as [b|] eqn:Hb.
  - apply Byte.to_of_N in Hb. rewrite Hb. lia.
  - apply Byte.of_N_None_iff in Hb. lia.
Qed.

Lemma low_byte_range (a : Z) : 0 <= Z.land a 255 < 256.
Proof.
  change 255 with (Z.ones 8). rewrite Z.land_ones by lia.
  apply Z.mod_pos_bound. lia.
Qed.

Lemma testbit_byte_at (x i k : Z) :
  0 <= i -> 0 <= k ->
  Z.testbit (Z.shiftl (Z.land (Z.shiftr x i) 255) i) k
  = Z.testbit x k && ((i <=? k) && (k <? i + 8)).
Proof.
  intros Hi Hk. rewrite Z.shiftl_spec by lia.
  destruct (Z.leb_spec i k) as [Hle | Hlt].
  - rewrite Z.land_spec, Z.shiftr_spec by lia.
    replace (k - i + i) with k by lia.
    change 255 with (Z.ones 8). rewrite Z.testbit_ones_nonneg by lia.
    destruct (Z.ltb_spec (k - i) 8), (Z.ltb_spec k (i + 8)); try lia;
      reflexivity.
  - rewrite Z.testbit_neg_r by lia. cbn [andb]. now rewrite andb_false_r.
Qed.

Lemma testbit_above (x k : Z) : 0 <= x < 2 ^ 32 -> 32 <= k -> Z.testbit x k = false.
Proof.
  intros Hx Hk.
  destruct (Z.eq_dec x 0) as [-> | Hne]; [apply Z.testbit_0_l|].
  apply Z.bits_above_log2; [lia|].
  assert (Z.log2 x < 32) by (apply Z.log2_lt_pow2; lia). lia.
Qed.

(** Decoding undoes the little-endian layout. *)
Lemma Uint32_le32 (x : Z) : 0 <= x < 2 ^ 32 -> Uint32 (le32 x) = Some x.
Proof.
  intros Hx. unfold le32. cbn [Uint32].
  rewrite !u8_byteOf by apply low_byte_range.
  f_equal. apply Z.bits_inj'. intros k Hk.
  rewrite <- (Z.shiftl_0_r (Z.land (Z.shiftr x 0) 255)).
  rewrite !Z.lor_spec, !testbit_byte_at by lia.
  destruct (Z_lt_le_dec k 32) as [Hlow | Hhigh].
  - destruct (Z.testbit x k); cbn [andb orb]; [|reflexivity].
    destruct (Z.leb_spec 0 k), (Z.ltb_spec k (0 + 8)),
      (Z.leb_spec 8 k), (Z.ltb_spec k (8 + 8)),
      (Z.leb_spec 16 k), (Z.ltb_spec k (16 + 8)),
      (Z.leb_spec 24 k), (Z.ltb_spec k (24 + 8)); try lia; reflexivity.
  - rewrite (testbit_above x k Hx Hhigh). reflexivity.
Qed.

Lemma memReadAt_trailer (front : list byte) (x : Z) :
  memReadAt (front ++ le32 x) make4 (len front) = mkIO (le32 x) 4 (Some EOF).
Proof.
  assert (Hlen : len (front ++ le32 x) = len front + 4)
    by (unfold len; rewrite length_app; cbn [le32 length]; lia).
  unfold memReadAt. rewrite Hlen.
  destruct (Z.ltb_spec (len front) 0); [unfold len in *; lia|].
  destruct (Z.leb_spec (len front + 4) (len front)); [lia|].
  cbn [orb]. unfold len at 1.
  rewrite Nat2Z.id, skipn_app, skipn_all, Nat.sub_diag.
  cbn [skipn app]. rewrite copy_fits by (cbn; lia).
  change (length (le32 x)) with 4%nat. change (len (le32 x)) with 4.
  rewrite Z.leb_refl. reflexivity.
Qed.

(** For an object in memory that ends in the four bytes of [offset],
    the function returns the number of bytes before them less
    [offset]. *)
Lemma sizeWithoutTrailer_memObject (front : list byte) (offset : Z) :
  0 <= offset < 2 ^ 32 ->
  len front + 4 < 2 ^ 63 ->
  sizeWithoutTrailer (inl (memObject (front ++ le32 offset)))
  = Returned (len front - offset) None.
Proof.
  intros Hoff Hsize.
  assert (Hlen : len (front ++ le32 offset) = len front + 4)
    by (unfold len; rewrite length_app; cbn [le32 length]; lia).
  assert (Hat : sub64 (len (front ++ le32 offset)) 4 = len front)
    by (rewrite Hlen, sub64_small; unfold in_int64, len in *; lia).
  rewrite (sizeWithoutTrailer_decodes _ (len (front ++ le32 offset)) offset).
  - rewrite Hlen.
    rewrite (sub64_small (len front + 4) offset)
      by (unfold in_int64, len in *; lia).
    rewrite sub64_small by (unfold in_int64, len in *; lia).
    f_equal. lia.
  - reflexivity.
  - right. cbn [memObject ReadAt]. now rewrite Hat, memReadAt_trailer.
  - cbn [memObject ReadAt]. rewrite Hat, memReadAt_trailer.
    rewrite written_same by reflexivity. now apply Uint32_le32.
Qed.

(** C4: when [Stat] reports a size of at least 4, the read of the last
    four bytes succeeds (with [nil], or with [io.EOF] as a read that
    ends at the end of the object may) and the little-endian offset
    stored there leaves [size - offset - 4] non-negative, the function
    returns exactly [size - offset - 4] and a nil error. *)
Theorem sizeWithoutTrailer_payload_length (obj : Object) (size offset : Z) :
  Stat obj = inl size ->
  4 <= size < 2 ^ 63 ->
  (io_err (ReadAt obj make4 (size - 4)) = None \/
   io_err (ReadAt obj make4 (size - 4)) = Some EOF) ->
  Uint32 (written make4 (ReadAt obj make4 (size - 4))) = Some offset ->
  0 <= size - offset - 4 ->
  sizeWithoutTrailer (inl obj) = Returned (size - offset - 4) None.
Proof.
  intros Hstat Hsize Herr Hoff Hpos.
  pose proof (Uint32_range _ _ Hoff) as Hrange.
  assert (Hat : sub64 size 4 = size - 4)
    by (apply sub64_small; unfold in_int64; lia).
  rewrite <- Hat in Herr, Hoff.
  rewrite (sizeWithoutTrailer_decodes obj size offset Hstat Herr Hoff).
  rewrite (sub64_small size offset) by (unfold in_int64; lia).
  rewrite sub64_small by (unfold in_int64; lia).
  reflexivity.
Qed.

Lemma sizeWithoutTrailer_payload_length_witness :
  sizeWithoutTrailer (inl within) = Returned (8 - 3 - 4) None.
Proof.
  apply (sizeWithoutTrailer_payload_length within 8 3).
  - reflexivity.
  - lia.
  - right. reflexivity.
  - reflexivity.
  - lia.
Defined.

(** C1, as stated, fails: for the eight-byte object [beyond] the stored
    offset is 100, so [size - offset - 4] is negative, and yet the
    function returns without an error. *)
Lemma sizeWithoutTrailer_negative_not_rejected :
  Stat beyond = inl 8 /\
  Uint32 (written make4 (ReadAt beyond make4 (8 - 4))) = Some 100 /\
  8 - 100 - 4 < 0 /\
  sizeWithoutTrailer (inl beyond) = Returned (-96) None /\
  ~ fails (sizeWithoutTrailer (inl beyond)).
Proof.
  repeat split; try reflexivity.
  intros H. exact H.
Qed.

(** C1, amended: the function does not check the offset.  When [Stat]
    reports a size and the read of the last four bytes returns [nil] or
    [io.EOF], an offset that makes [size - offset - 4] negative is
    answered with that negative number and a nil error. *)
Theorem sizeWithoutTrailer_negative_returned (obj : Object) (size offset : Z) :
  Stat obj = inl size ->
  0 <= size < 2 ^ 63 ->
  (io_err (ReadAt obj make4 (size - 4)) = None \/
   io_err (ReadAt obj make4 (size - 4)) = Some EOF) ->
  Uint32 (written make4 (ReadAt obj make4 (size - 4))) = Some offset ->
  size - offset - 4 < 0 ->
  sizeWithoutTrailer (inl obj) = Returned (size - offset - 4) None /\
  ~ fails (sizeWithoutTrailer (inl obj)).
Proof.
  intros Hstat Hsize Herr Hoff Hneg.
  pose proof (Uint32_range _ _ Hoff) as Hrange.
  assert (Hat : sub64 size 4 = size - 4)
    by (apply sub64_small; unfold in_int64; lia).
  rewrite <- Hat in Herr, Hoff.
  rewrite (sizeWithoutTrailer_decodes obj size offset Hstat Herr Hoff).
  rewrite (sub64_small size offset) by (unfold in_int64; lia).
  rewrite sub64_small by (unfold in_int64; lia).
  split; [reflexivity | intros H; exact H].
Qed.

Lemma sizeWithoutTrailer_negative_returned_witness :
  sizeWithoutTrailer (inl beyond) = Returned (8 - 100 - 4) None /\
  ~ fails (sizeWithoutTrailer (inl beyond)).
Proof.
  apply (sizeWithoutTrailer_negative_returned beyond 8 100).
  - reflexivity.
  - lia.
  - right. reflexivity.
  - reflexivity.
  - lia.
Defined.

(** C10: when the read of the last four bytes returns [io.EOF], the
    function goes on as after a successful read, whatever byte count
    [k] came back with it: the offset is decoded from the bytes [w] the
    read stored, padded with the zeros the buffer was made with, and
    the result carries a nil error. *)
Theorem sizeWithoutTrailer_EOF_accepted
  (obj : Object) (size : Z) (w : list byte) (k : Z) :
  Stat obj = inl size ->
  ReadAt obj make4 (sub64 size 4) = mkIO w k (Some EOF) ->
  (length w <= 4)%nat ->
  exists offset,
    Uint32 (w ++ repeat Byte.x00 (4 - length w)) = Some offset /\
    sizeWithoutTrailer (inl obj) = Returned (sub64 (sub64 size offset) 4) None.
Proof.
  intros Hstat Hread Hw.
  assert (Hbuf : written make4 (ReadAt obj make4 (sub64 size 4))
                 = w ++ repeat Byte.x00 (4 - length w)).
  { rewrite Hread. unfold written, make4. cbn [io_buf].
    rewrite skipn_repeat_sub, repeat_length.
    apply firstn_all2. rewrite length_app, repeat_length. lia. }
  destruct (Uint32_four (w ++ repeat Byte.x00 (4 - length w))) as [offset Hoff].
  { rewrite length_app, repeat_length. lia. }
  exists offset. split; [exact Hoff|].
  apply sizeWithoutTrailer_decodes; [exact Hstat | | ].
  - right. rewrite Hread. reflexivity.
  - rewrite Hbuf. exact Hoff.
Qed.

Lemma sizeWithoutTrailer_EOF_accepted_witness :
  exists offset,
    Uint32 ([Byte.x02; Byte.x01] ++ repeat Byte.x00 (4 - 2)) = Some offset /\
    sizeWithoutTrailer (inl truncated)
    = Returned (sub64 (sub64 600 offset) 4) None.
Proof.
  apply (sizeWithoutTrailer_EOF_accepted truncated 600 [Byte.x02; Byte.x01] 2).
  - reflexivity.
  - reflexivity.
  - cbn. lia.
Defined.

End TrailerSpec.

(** ** HeaderSynthesizer *)

Module BVMSpec.
Import BVM GoFacts.

(** The marker bytes still to be emitted when [m] have been. *)
Lemma marker_left_length (m : Z) :
  0 <= m <= 4 -> len (skipn (Z.to_nat m) bvm) = 4 - m.
Proof.
  intros Hm. unfold len. rewrite length_skipn. cbn [bvm length]. lia.
Qed.

Section Reader.

Variable S : Type.
Variable srcRead : S -> list byte -> ioResult * S.

(** A buffer no longer than the rest of the marker is filled from the
    marker alone. *)
Lemma Read_marker (rd : bvmReader S) (p : list byte) :
  0 <= n rd < 4 -> len p <= 4 - n rd ->
  Read srcRead rd p
  = Some (mkIO (firstn (length p) (skipn (Z.to_nat (n rd)) bvm)) (len p) None,
          mkBVM (r rd) (n rd + len p)).
Proof.
  intros Hn Hp. unfold BVM.Read.
  destruct (Z.ltb_spec (n rd) 4); [|lia].
  rewrite sub64_small by (unfold in_int64; lia).
  destruct (Z.gtb_spec (len p) (4 - n rd)); [lia|].
  rewrite add64_small by (unfold in_int64, len in *; lia).
  rewrite slice_inside by (unfold len in *; cbn [bvm length]; lia).
  replace (Z.to_nat (n rd + len p - n rd)) with (length p)
    by (unfold len; lia).
  assert (Hfit : length (firstn (length p) (skipn (Z.to_nat (n rd)) bvm))
                 = length p).
  { rewrite length_firstn, length_skipn. cbn [bvm length].
    unfold len in *. lia. }
  rewrite copy_fits by lia.
  rewrite Hfit, skipn_all, app_nil_r, Z.eqb_refl.
  replace (len (firstn (length p) (skipn (Z.to_nat (n rd)) bvm)))
    with (len p) by (unfold len; now rewrite Hfit).
  rewrite add64_small by (unfold in_int64, len in *; lia).
  reflexivity.
Qed.

(** A longer buffer takes the rest of the marker and then one read of
    the wrapped source into what is left of it. *)
Lemma Read_boundary (rd : bvmReader S) (p : list byte)
  (res : ioResult) (s' : S) :
  0 <= n rd < 4 -> 4 - n rd < len p ->
  call srcRead (r rd) (skipn (Z.to_nat (4 - n rd)) p) = (res, s') ->
  Read srcRead rd p
  = Some (mkIO (skipn (Z.to_nat (n rd)) bvm ++ io_buf res)
               (match io_err res with
                | Some _ => 0
                | None => add64 (4 - n rd) (io_n res)
                end)
               (io_err res),
          mkBVM s' 4).
Proof.
  intros Hn Hp Hcall. unfold BVM.Read.
  destruct (Z.ltb_spec (n rd) 4); [|lia].
  rewrite sub64_small by (unfold in_int64; lia).
  destruct (Z.gtb_spec (len p) (4 - n rd)); [|lia].
  rewrite add64_small by (unfold in_int64; lia).
  rewrite slice_inside by (unfold len in *; cbn [bvm length]; lia).
  pose proof (marker_left_length (n rd) ltac:(lia)) as Hleft.
  set (left := skipn (Z.to_nat (n rd)) bvm) in *.
  assert (Hk : length left = Z.to_nat (4 - n rd)) by (unfold len in Hleft; lia).
  replace (Z.to_nat (n rd + (4 - n rd) - n rd)) with (length left) by lia.
  rewrite firstn_all.
  rewrite copy_fits by (unfold len in *; lia).
  replace (len left) with (4 - n rd) by lia.
  rewrite add64_small by (unfold in_int64; lia).
  destruct (Z.eqb_spec (4 - n rd) (len p)); [lia|].
  assert (Hrest : slice_from (left ++ skipn (length left) p) (4 - n rd)
                  = Some (skipn (length left) p)).
  { unfold slice_from. rewrite slice_inside.
    - f_equal. rewrite <- Hk, skipn_app, skipn_all, Nat.sub_diag.
      cbn [skipn app]. apply firstn_all2.
      unfold len. rewrite length_app, !length_skipn. lia.
    - unfold len in *. rewrite length_app, length_skipn. lia.
    - lia. }
  rewrite Hrest. cbn [r n].
  rewrite Hk, Hcall.
  rewrite <- Hk, firstn_app, firstn_all, Nat.sub_diag.
  cbn [firstn]. rewrite app_nil_r.
  replace (n rd + (4 - n rd)) with 4 by lia.
  destruct (io_err res); reflexivity.
Qed.

(** Once four marker bytes are counted, [Read] is the read of the
    wrapped source on the caller's own buffer. *)
Lemma Read_through (rd : bvmReader S) (p : list byte) :
  4 <= n rd ->
  Read srcRead rd p
  = (let '(res, s') := call srcRead (r rd) p in Some (res, mkBVM s' (n rd))).
Proof.
  intros Hn. unfold BVM.Read.
  destruct (Z.ltb_spec (n rd) 4); [lia|]. reflexivity.
Qed.

(** One [Read] from a count between 0 and 4 returns, and leaves a
    count that is no smaller and still at most 4. *)
Lemma Read_count (rd : bvmReader S) (p : list byte) :
  0 <= n rd <= 4 ->
  exists res rd',
    Read srcRead rd p = Some (res, rd') /\ n rd <= n rd' <= 4.
Proof.
  intros Hn.
  destruct (Z.eq_dec (n rd) 4) as [H4 | H4].
  - rewrite Read_through by lia.
    destruct (call srcRead (r rd) p) as [res s'].
    exists res, (mkBVM s' (n rd)). cbn [n]. split; [reflexivity | lia].
  - destruct (Z_le_gt_dec (len p) (4 - n rd)) as [Hle | Hgt].
    + rewrite Read_marker by lia.
      eexists _, _. split; [reflexivity|]. cbn [n]. unfold len in *. lia.
    + destruct (call srcRead (r rd) (skipn (Z.to_nat (4 - n rd)) p))
        as [res s'] eqn:Hcall.
      rewrite (Read_boundary rd p res s') by (assumption || lia).
      eexists _, _. split; [reflexivity|]. cbn [n]. lia.
Qed.

Lemma after_count (qs : list (list byte)) :
  forall rd : bvmReader S,
    0 <= n rd <= 4 ->
    exists rd', after srcRead qs rd = Some rd' /\ n rd <= n rd' <= 4.
Proof.
  induction qs as [|q qs IH]; intros rd Hn; cbn [after].
  - exists rd. split; [reflexivity | lia].
  - destruct (Read_count rd q Hn) as (res & rd1 & -> & Hn1).
    destruct (IH rd1 ltac:(lia)) as (rd' & -> & Hn').
    exists rd'. split; [reflexivity | lia].
Qed.

Lemma after_app (ps qs : list (list byte)) :
  forall rd : bvmReader S,
    after srcRead (ps ++ qs) rd
    = match after srcRead ps rd with
      | Some rd1 => after srcRead qs rd1
      | None => None
      end.
Proof.
  induction ps as [|p ps IH]; intros rd; cbn [after app]; [reflexivity|].
  destruct (Read srcRead rd p) as [[res rd1]|]; [apply IH | reflexivity].
Qed.

(** C7: in a [Read] whose buffer is longer than the rest of the
    marker, an error from the one read of the wrapped source makes
    [Read] return the count 0 and that error.  The marker bytes and
    whatever the source stored lie in the buffer, but none of them is
    reported; the count of emitted marker bytes is 4 all the same, so
    every later [Read] goes straight to the source. *)
Theorem Read_boundary_error (rd : bvmReader S) (p : list byte)
  (res : ioResult) (s' : S) (e : error) :
  0 <= n rd < 4 -> 4 - n rd < len p ->
  call srcRead (r rd) (skipn (Z.to_nat (4 - n rd)) p) = (res, s') ->
  io_err res = Some e ->
  let staged := skipn (Z.to_nat (n rd)) bvm ++ io_buf res in
  Read srcRead rd p = Some (mkIO staged 0 (Some e), mkBVM s' 4) /\
  reported (mkIO staged 0 (Some e)) = [] /\
  forall q,
    Read srcRead (mkBVM s' 4) q
    = (let '(res', s'') := call srcRead s' q in Some (res', mkBVM s'' 4)).
Proof.
  intros Hn Hp Hcall Herr staged. split; [|split].
  - rewrite (Read_boundary rd p res s' Hn Hp Hcall), Herr. reflexivity.
  - reflexivity.
  - intros q. apply (Read_through (mkBVM s' 4) q). cbn [n]. lia.
Qed.

(** C9: after any series of [Read] calls on a new reader, and after
    any further series, the count of emitted marker bytes lies
    between 0 and 4 and has not gone down; and when it is 4, a [Read]
    is the read of the wrapped source on the very buffer it was
    given, the count staying at 4. *)
Theorem count_bounded_monotone (input : S) (ps qs : list (list byte)) :
  exists rd1 rd2,
    after srcRead ps (newBVMReader input) = Some rd1 /\
    after srcRead (ps ++ qs) (newBVMReader input) = Some rd2 /\
    0 <= n rd1 /\ n rd1 <= n rd2 /\ n rd2 <= 4 /\
    (n rd1 = 4 ->
     forall p,
       Read srcRead rd1 p
       = (let '(res, s') := call srcRead (r rd1) p in
          Some (res, mkBVM s' 4))).
Proof.
  destruct (after_count ps (newBVMReader input)) as (rd1 & Hps & Hn1);
    [cbn; lia|].
  destruct (after_count qs rd1) as (rd2 & Hqs & Hn2); [cbn in Hn1; lia|].
  exists rd1, rd2. rewrite after_app, Hps. cbn [newBVMReader n] in Hn1.
  repeat split; try assumption; try lia.
  intros H4 p. rewrite Read_through by lia. rewrite H4. reflexivity.
Qed.

End Reader.

(** *** The reader over a source held in memory *)

Lemma call_bytesRead_empty (p : list byte) :
  call bytesRead [] p = (mkIO p 0 (Some EOF), []).
Proof.
  unfold call, bytesRead. rewrite written_same; reflexivity.
Qed.

Lemma call_bytesRead_some (s p : list byte) :
  s <> [] ->
  call bytesRead s p
  = (mkIO (firstn (Nat.min (length p) (length s)) s
           ++ skipn (Nat.min (length p) (length s)) p)
          (Z.of_nat (Nat.min (length p) (length s))) None,
     skipn (Nat.min (length p) (length s)) s).
Proof.
  intros Hs. destruct s as [|b s]; [congruence|].
  unfold call, bytesRead, copy. cbv zeta. cbn [io_n io_err].
  rewrite Nat2Z.id, written_same; [reflexivity|].
  rewrite length_app, length_firstn, length_skipn. lia.
Qed.

Lemma firstn_split_min {A} (a b : nat) (s : list A) :
  firstn (a + b) s
  = firstn (Nat.min a (length s)) s
    ++ firstn b (skipn (Nat.min a (length s)) s).
Proof.
  destruct (Nat.le_gt_cases a (length s)) as [Hle | Hgt].
  - rewrite Nat.min_l by exact Hle.
    rewrite <- (firstn_skipn a s) at 1.
    rewrite firstn_app, length_firstn, Nat.min_l by exact Hle.
    rewrite firstn_all2 by (rewrite length_firstn; lia).
    now replace (a + b - a)%nat with b by lia.
  - rewrite Nat.min_r by lia.
    rewrite firstn_all, skipn_all, firstn_nil, app_nil_r.
    apply firstn_all2. lia.
Qed.

Lemma reported_prefix (front back : list byte) (k : Z) (e : option error) :
  k = len front -> reported (mkIO (front ++ back) k e) = front.
Proof.
  intros ->. unfold reported, len. cbn [io_n io_buf].
  rewrite Nat2Z.id, firstn_app, firstn_all, Nat.sub_diag.
  cbn [firstn]. apply app_nil_r.
Qed.

(** The three ways a [Read] into a fresh buffer of [k] bytes can go. *)
Lemma Read_bytes_marker (s : list byte) (m k : nat) :
  (m < 4)%nat -> (k <= 4 - m)%nat ->
  exists res,
    Read bytesRead (mkBVM s (Z.of_nat m)) (repeat Byte.x00 k)
    = Some (res, mkBVM s (Z.of_nat (m + k))) /\
    io_err res = None /\
    reported res = firstn k (skipn m bvm).
Proof.
  intros Hm Hk.
  rewrite Read_marker by (unfold len; cbn [n]; rewrite ?repeat_length; lia).
  cbn [n r]. unfold len. rewrite repeat_length, Nat2Z.id, <- Nat2Z.inj_add.
  eexists. split; [reflexivity|]. split; [reflexivity|].
  rewrite <- (app_nil_r (firstn k (skipn m bvm))) at 1.
  apply reported_prefix. unfold len.
  rewrite length_firstn, length_skipn. cbn [bvm length]. lia.
Qed.

Lemma Read_bytes_boundary (s : list byte) (m k : nat) :
  (m < 4)%nat -> (4 - m < k)%nat -> fits k = true -> s <> [] ->
  exists res,
    Read bytesRead (mkBVM s (Z.of_nat m)) (repeat Byte.x00 k)
    = Some (res, mkBVM (skipn (Nat.min (k - (4 - m)) (length s)) s) 4) /\
    io_err res = None /\
    reported res
    = skipn m bvm ++ firstn (Nat.min (k - (4 - m)) (length s)) s.
Proof.
  intros Hm Hk Hfits Hs.
  unfold fits in Hfits. apply Z.ltb_lt in Hfits.
  set (j := Nat.min (k - (4 - m)) (length s)).
  pose proof (call_bytesRead_some s
                (skipn (Z.to_nat (4 - Z.of_nat m)) (repeat Byte.x00 k)) Hs)
    as Hcall.
  replace (Nat.min (length (skipn (Z.to_nat (4 - Z.of_nat m))
                              (repeat Byte.x00 k))) (length s))
    with j in Hcall
    by (rewrite length_skipn, repeat_length; unfold j; lia).
  assert (Hn : 0 <= n (mkBVM s (Z.of_nat m)) < 4) by (cbn [n]; lia).
  assert (Hp : 4 - n (mkBVM s (Z.of_nat m)) < len (repeat Byte.x00 k))
    by (unfold len; cbn [n]; rewrite repeat_length; lia).
  rewrite (Read_boundary _ _ _ _ _ _ Hn Hp Hcall).
  cbn [io_err io_n io_buf n]. rewrite Nat2Z.id.
  eexists. split; [reflexivity|]. split; [reflexivity|].
  rewrite app_assoc. apply reported_prefix.
  assert (Hj : (j <= k)%nat) by (unfold j; lia).
  unfold len. rewrite length_app, length_skipn, length_firstn.
  cbn [bvm length]. fold j.
  rewrite add64_small by (unfold in_int64; lia).
  assert (Nat.min j (length s) = j) by (unfold j; lia). lia.
Qed.

Lemma Read_bytes_through (s : list byte) (k : nat) :
  s <> [] ->
  exists res,
    Read bytesRead (mkBVM s 4) (repeat Byte.x00 k)
    = Some (res, mkBVM (skipn (Nat.min k (length s)) s) 4) /\
    io_err res = None /\
    reported res = firstn (Nat.min k (length s)) s.
Proof.
  intros Hs.
  rewrite Read_through by (cbn [n]; lia). cbn [r n].
  rewrite (call_bytesRead_some s _ Hs), repeat_length.
  eexists. split; [reflexivity|]. split; [reflexivity|].
  apply reported_prefix. unfold len. rewrite length_firstn. lia.
Qed.

Lemma Read_bytes_drained (p : list byte) :
  Read bytesRead (mkBVM [] 4) p
  = Some (mkIO p 0 (Some EOF), mkBVM [] 4).
Proof.
  rewrite Read_through by (cbn [n]; lia). cbn [r n].
  now rewrite call_bytesRead_empty.
Qed.

Lemma straddles_within (m k : nat) (sizes : list nat) :
  (m < 4)%nat -> (k <= 4 - m)%nat ->
  straddles m (k :: sizes) = straddles (m + k) sizes.
Proof.
  intros Hm Hk. cbn [straddles].
  destruct (Nat.ltb_spec m 4); [|lia].
  destruct (Nat.ltb_spec (4 - m) k); [lia | reflexivity].
Qed.

Lemma straddles_across (m k : nat) (sizes : list nat) :
  (m < 4)%nat -> (4 - m < k)%nat -> straddles m (k :: sizes) = true.
Proof.
  intros Hm Hk. cbn [straddles].
  destruct (Nat.ltb_spec m 4); [|lia].
  destruct (Nat.ltb_spec (4 - m) k); [reflexivity | lia].
Qed.

Lemma straddles_past (sizes : list nat) : straddles 4 sizes = false.
Proof. destruct sizes; reflexivity. Qed.

Lemma marker_left (m : nat) : (m <= 4)%nat -> length (skipn m bvm) = (4 - m)%nat.
Proof. intros _. rewrite length_skipn. reflexivity. Qed.

Lemma stream_after_marker (m k j : nat) (s : list byte) :
  (m <= 4)%nat -> (k <= 4 - m)%nat ->
  firstn (k + j) (skipn m bvm ++ s)
  = firstn k (skipn m bvm) ++ firstn j (skipn (m + k) bvm ++ s).
Proof.
  intros Hm Hk.
  pose proof (marker_left m Hm) as Hlen.
  rewrite (firstn_split_min k j), length_app, Hlen.
  rewrite Nat.min_l by lia.
  rewrite firstn_app, skipn_app, Hlen, skipn_skipn.
  replace (k - (4 - m))%nat with 0%nat by lia.
  cbn [firstn skipn]. rewrite app_nil_r.
  now rewrite (Nat.add_comm k m).
Qed.

Lemma stream_across_marker (m k j : nat) (s : list byte) :
  (m <= 4)%nat -> (4 - m < k)%nat ->
  firstn (k + j) (skipn m bvm ++ s)
  = (skipn m bvm ++ firstn (Nat.min (k - (4 - m)) (length s)) s)
    ++ firstn j (skipn (Nat.min (k - (4 - m)) (length s)) s).
Proof.
  intros Hm Hk.
  pose proof (marker_left m Hm) as Hlen.
  rewrite firstn_app, Hlen, firstn_all2 by lia.
  replace (k + j - (4 - m))%nat with (k - (4 - m) + j)%nat by lia.
  now rewrite firstn_split_min, app_assoc.
Qed.

(** What [readAll] collects from the count [m] and the source [s]. *)
Lemma readAll_bytes (sizes : list nat) :
  forall (m : nat) (s acc : list byte),
    (m <= 4)%nat ->
    forallb fits sizes = true ->
    s <> [] \/ straddles m sizes = false ->
    exists err rd',
      readAll bytesRead sizes (mkBVM s (Z.of_nat m)) acc
      = Some (acc ++ firstn (list_sum sizes) (skipn m bvm ++ s), err, rd') /\
      (err <> None ->
       firstn (list_sum sizes) (skipn m bvm ++ s) = skipn m bvm ++ s).
Proof.
  induction sizes as [|k sizes IH]; intros m s acc Hm Hfits Hsrc.
  - exists None, (mkBVM s (Z.of_nat m)). cbn [readAll list_sum firstn].
    rewrite app_nil_r. split; [reflexivity | congruence].
  - cbn [forallb] in Hfits. apply andb_prop in Hfits as [Hk Hfits].
    cbn [readAll].
    change (list_sum (k :: sizes)) with (k + list_sum sizes)%nat.
    destruct (Nat.eq_dec m 4) as [-> | Hm4].
    + change (Z.of_nat 4) with 4. change (skipn 4 bvm) with (@nil byte).
      cbn [app]. destruct s as [|b s].
      * rewrite Read_bytes_drained. cbn [io_err].
        exists (Some EOF), (mkBVM [] 4).
        rewrite firstn_nil. split; reflexivity.
      * destruct (Read_bytes_through (b :: s) k ltac:(discriminate))
          as (res & -> & -> & ->).
        destruct (IH 4%nat (skipn (Nat.min k (length (b :: s))) (b :: s))
                    (acc ++ firstn (Nat.min k (length (b :: s))) (b :: s))
                    ltac:(lia) Hfits (or_intror (straddles_past sizes)))
          as (err & rd' & Hrun & Hend).
        change (Z.of_nat 4) with 4 in Hrun.
        change (skipn 4 bvm) with (@nil byte) in Hrun, Hend.
        cbn [app] in Hrun, Hend.
        exists err, rd'. rewrite Hrun, <- app_assoc, <- firstn_split_min.
        split; [reflexivity|]. intros He.
        rewrite firstn_split_min, (Hend He). apply firstn_skipn.
    + destruct (le_gt_dec k (4 - m)) as [Hshort | Hlong].
      * destruct (Read_bytes_marker s m k ltac:(lia) Hshort)
          as (res & -> & -> & ->).
        assert (Hsrc' : s <> [] \/ straddles (m + k) sizes = false).
        { destruct Hsrc as [Hs | Hs]; [now left | right].
          now rewrite <- (straddles_within m k sizes) by lia. }
        destruct (IH (m + k)%nat s (acc ++ firstn k (skipn m bvm))
                    ltac:(lia) Hfits Hsrc')
          as (err & rd' & Hrun & Hend).
        exists err, rd'.
        rewrite Hrun, <- app_assoc, <- stream_after_marker by lia.
        split; [reflexivity|]. intros He.
        rewrite stream_after_marker, (Hend He) by lia.
        rewrite (Nat.add_comm m k), <- skipn_skipn, app_assoc, firstn_skipn.
        reflexivity.
      * assert (Hs : s <> []).
        { destruct Hsrc as [Hs | Hs]; [exact Hs|].
          rewrite straddles_across in Hs by lia. discriminate. }
        destruct (Read_bytes_boundary s m k ltac:(lia) Hlong Hk Hs)
          as (res & -> & -> & ->).
        set (j := Nat.min (k - (4 - m)) (length s)).
        destruct (IH 4%nat (skipn j s) (acc ++ skipn m bvm ++ firstn j s)
                    ltac:(lia) Hfits (or_intror (straddles_past sizes)))
          as (err & rd' & Hrun & Hend).
        change (Z.of_nat 4) with 4 in Hrun.
        change (skipn 4 bvm) with (@nil byte) in Hrun, Hend.
        cbn [app] in Hrun, Hend.
        exists err, rd'.
        rewrite Hrun, <- app_assoc, stream_across_marker by lia.
        split; [reflexivity|]. intros He.
        fold j. rewrite (Hend He), <- app_assoc, firstn_skipn.
        reflexivity.
Qed.

(** C2, as stated, fails: over an empty source, a caller whose first
    buffer holds eight bytes is told [io.EOF] at once and receives
    nothing, not even the marker. *)
Lemma chunking_fails_on_empty_source : ~ chunking_invariant [] [8%nat].
Proof.
  intros H.
  specialize (H [] EOF (mkBVM [] 4) eq_refl). discriminate H.
Qed.

(** Over the source held in memory that fills each buffer as far as it
    can, when the content is not empty or no read straddles the end of
    the marker, the bytes a caller collects are the first
    [list_sum sizes] bytes of the marker followed by the content,
    however the reads are cut.  They are the whole of it once the
    caller has been told of the end of the stream, and whenever the
    buffers add up to four bytes more than the content. *)
Theorem readAll_marker_then_content (content : list byte) (sizes : list nat) :
  forallb fits sizes = true ->
  content <> [] \/ straddles 0 sizes = false ->
  exists out err rd',
    readAll bytesRead sizes (newBVMReader content) [] = Some (out, err, rd') /\
    out = firstn (list_sum sizes) (bvm ++ content) /\
    (err <> None -> out = bvm ++ content) /\
    ((4 + length content <= list_sum sizes)%nat -> out = bvm ++ content).
Proof.
  intros Hfits Hsrc.
  destruct (readAll_bytes sizes 0%nat content [] ltac:(lia) Hfits Hsrc)
    as (err & rd' & Hrun & Hend).
  change (skipn 0 bvm) with bvm in Hrun, Hend. cbn [app] in Hrun.
  exists (firstn (list_sum sizes) (bvm ++ content)), err, rd'.
  split; [exact Hrun|]. split; [reflexivity|]. split; [exact Hend|].
  intros Hsum. apply firstn_all2. rewrite length_app. cbn [bvm length]. lia.
Qed.

Lemma readAll_marker_then_content_witness :
  exists out err rd',
    readAll bytesRead [3; 3; 0; 8; 1]%nat (newBVMReader content3) []
    = Some (out, err, rd') /\
    out = firstn (list_sum [3; 3; 0; 8; 1]%nat) (bvm ++ content3) /\
    (err <> None -> out = bvm ++ content3) /\
    ((4 + length content3 <= list_sum [3; 3; 0; 8; 1]%nat)%nat ->
     out = bvm ++ content3).
Proof.
  apply (readAll_marker_then_content content3 [3; 3; 0; 8; 1]%nat).
  - reflexivity.
  - left. discriminate.
Defined.

Lemma Read_boundary_error_witness :
  let staged := bvm ++ [Byte.x11; Byte.x12; Byte.x13; Byte.x00] in
  Read (endRead (ErrLib 7)) (newBVMReader content3) (repeat Byte.x00 8)
  = Some (mkIO staged 0 (Some (ErrLib 7)), mkBVM [] 4) /\
  reported (mkIO staged 0 (Some (ErrLib 7))) = [] /\
  forall q,
    Read (endRead (ErrLib 7)) (mkBVM [] 4) q
    = (let '(res', s'') := call (endRead (ErrLib 7)) [] q in
       Some (res', mkBVM s'' 4)).
Proof.
  apply (Read_boundary_error (list byte) (endRead (ErrLib 7))
           (newBVMReader content3) (repeat Byte.x00 8)
           (mkIO [Byte.x11; Byte.x12; Byte.x13; Byte.x00] 3 (Some (ErrLib 7)))
           [] (ErrLib 7)).
  - cbn. lia.
  - cbn. lia.
  - reflexivity.
  - reflexivity.
Defined.

End BVMSpec.

(** ** EnvelopeExtractor *)

Module ExtractSpec.
Import Extract GoFacts.

Lemma ionType_eqb_blob (t : ionType) :
  ionType_eqb t BlobType = true <-> t = BlobType.
Proof. destruct t; cbn; split; congruence. Qed.

Section Extract.

Variables R W : Type.
Variable Next : R -> bool * R.
Variable Type' : R -> ionType.
Variable ByteValue : R -> list byte * option error.
Variable Write : W -> list byte -> (Z * option error) * W.

Lemma items_nil_inv (rd rd' : R) :
  items Next Type' ByteValue rd [] rd' -> Next rd = (false, rd').
Proof. intros H. inversion H. assumption. Qed.

Lemma items_cons_inv (rd rd' : R) (t : ionType)
  (v : list byte * option error)
  (its : list (ionType * (list byte * option error))) :
  items Next Type' ByteValue rd ((t, v) :: its) rd' ->
  exists rd1,
    Next rd = (true, rd1) /\ Type' rd1 = t /\ ByteValue rd1 = v /\
    items Next Type' ByteValue rd1 its rd'.
Proof. intros H. inversion H; subst. eauto. Qed.

(** Through a run of blobs the loop does what [writeAll] does: it
    stops with the error of the first refused write, or arrives at
    the value after the run with every blob written. *)
Lemma extract_blobs (bs : list (list byte)) :
  forall (rd rd' : R) (tail : list (ionType * (list byte * option error)))
         (out : W) (fuel : nat),
    items Next Type' ByteValue rd (map blob bs ++ tail) rd' ->
    (length bs < fuel)%nat ->
    (exists e rdx,
        fst (writeAll Write out bs) = Some e /\
        extract Next Type' ByteValue Write fuel rd out
        = Some (Some e, rdx, snd (writeAll Write out bs)))
    \/
    (exists rd1,
        fst (writeAll Write out bs) = None /\
        items Next Type' ByteValue rd1 tail rd' /\
        extract Next Type' ByteValue Write fuel rd out
        = extract Next Type' ByteValue Write (fuel - length bs) rd1
            (snd (writeAll Write out bs))).
Proof.
  induction bs as [|b bs IH]; intros rd rd' tail out fuel Hits Hfuel.
  - right. exists rd. cbn [writeAll fst snd length].
    rewrite Nat.sub_0_r. auto.
  - cbn [map app] in Hits. unfold blob at 1 in Hits.
    apply items_cons_inv in Hits as (rd1 & HNext & Hty & Hval & Hrest).
    destruct fuel as [|fuel]; [cbn in Hfuel; lia|].
    cbn [extract writeAll]. rewrite HNext, Hty, Hval. cbn [ionType_eqb negb].
    destruct (Write out b) as [[k [e|]] out1].
    + left. exists e, rd1. cbn [fst snd]. auto.
    + cbn [length] in Hfuel.
      destruct (IH rd1 rd' tail out1 fuel Hrest ltac:(lia))
        as [(e & rdx & He & Hrun) | (rd2 & He & Htail & Hrun)].
      * left. exists e, rdx. auto.
      * right. exists rd2. cbn [length Nat.sub]. auto.
Qed.

(** When every write is accepted, a stream of blobs is written out
    in full and the loop ends on the [Next] that returns false. *)
Lemma extract_blobs_to_end (bs : list (list byte)) (rd rd' : R)
  (out : W) (fuel : nat) :
  items Next Type' ByteValue rd (map blob bs) rd' ->
  (length bs < fuel)%nat ->
  fst (writeAll Write out bs) = None ->
  extract Next Type' ByteValue Write fuel rd out
  = Some (None, rd', snd (writeAll Write out bs)).
Proof.
  intros Hits Hfuel Hok.
  rewrite <- (app_nil_r (map blob bs)) in Hits.
  destruct (extract_blobs bs rd rd' [] out fuel Hits Hfuel)
    as [(e & rdx & He & _) | (rd1 & _ & Hend & ->)]; [congruence|].
  apply items_nil_inv in Hend.
  destruct (fuel - length bs)%nat as [|rest] eqn:Hleft; [lia|].
  cbn [extract]. now rewrite Hend.
Qed.

(** C6: when the values up to some point are blobs and the next one
    has another type, [extract] returns an error, and the writer is
    left as the writes of those earlier blobs left it: nothing is
    written for the value of the other type or for any value after
    it.  The error is "unexpected token type" unless the writer had
    already refused one of the earlier blobs. *)
Theorem extract_rejects_non_blob (front : list (list byte))
  (t : ionType) (v : list byte * option error)
  (rest : list (ionType * (list byte * option error)))
  (rd rd' : R) (out : W) (fuel : nat) :
  items Next Type' ByteValue rd (map blob front ++ (t, v) :: rest) rd' ->
  t <> BlobType ->
  (length front < fuel)%nat ->
  exists e rdx,
    extract Next Type' ByteValue Write fuel rd out
    = Some (Some e, rdx, snd (writeAll Write out front)) /\
    (fst (writeAll Write out front) = None -> e = errUnexpectedToken) /\
    (forall e', fst (writeAll Write out front) = Some e' -> e = e').
Proof.
  intros Hits Ht Hfuel.
  destruct (extract_blobs front rd rd' ((t, v) :: rest) out fuel Hits Hfuel)
    as [(e & rdx & He & Hrun) | (rd1 & He & Htail & Hrun)].
  - exists e, rdx. rewrite He. repeat split; congruence.
  - apply items_cons_inv in Htail as (rd2 & HNext & Hty & _ & _).
    exists errUnexpectedToken, rd2. rewrite Hrun, He.
    destruct (fuel - length front)%nat as [|left] eqn:Hleft; [lia|].
    cbn [extract]. rewrite HNext, Hty.
    destruct (ionType_eqb t BlobType) eqn:Heq.
    + apply ionType_eqb_blob in Heq. contradiction.
    + cbn [negb]. repeat split; congruence.
Qed.

End Extract.

(** *** The reader that plays back a list, the writer in memory *)

Lemma script_items (its : list (ionType * (list byte * option error))) :
  forall (fin : option error)
         (cur : option (ionType * (list byte * option error)))
         (fl : option error),
    items scriptNext scriptType scriptByteValue
      (mkScript its fin cur fl) its (mkScript [] fin None fin).
Proof.
  induction its as [|[t v] its IH]; intros fin cur fl.
  - apply items_end. reflexivity.
  - change (t, v) with
      (scriptType (mkScript its fin (Some (t, v)) None),
       scriptByteValue (mkScript its fin (Some (t, v)) None)) at 2.
    apply items_next; [reflexivity | apply IH].
Qed.

Lemma writeAll_bufWrite (bs : list (list byte)) :
  forall out, writeAll bufWrite out bs = (None, out ++ concat bs).
Proof.
  induction bs as [|b bs IH]; intros out; cbn [writeAll bufWrite concat].
  - now rewrite app_nil_r.
  - now rewrite IH, app_assoc.
Qed.

(** C5: for a stream of N blobs with contents [b1 .. bN], [extract]
    appends exactly [b1 ++ ... ++ bN] to the output, in that order and
    with nothing in between, and returns nil. *)
Theorem extract_concatenates_blobs {R : Type}
  (Next : R -> bool * R) (Type' : R -> ionType)
  (ByteValue : R -> list byte * option error)
  (bs : list (list byte)) (rd rd' : R) (out : list byte) (fuel : nat) :
  items Next Type' ByteValue rd (map blob bs) rd' ->
  (length bs < fuel)%nat ->
  extract Next Type' ByteValue bufWrite fuel rd out
  = Some (None, rd', out ++ concat bs).
Proof.
  intros Hits Hfuel.
  rewrite (extract_blobs_to_end _ _ _ _ _ _ bs rd rd' out fuel Hits Hfuel);
    now rewrite writeAll_bufWrite.
Qed.

Lemma extract_concatenates_blobs_witness :
  extract scriptNext scriptType scriptByteValue bufWrite 3
    (openScript (map blob [[Byte.x01]; [Byte.x02; Byte.x03]]) None) []
  = Some (None, mkScript [] None None None,
          [] ++ concat [[Byte.x01]; [Byte.x02; Byte.x03]]).
Proof.
  apply (extract_concatenates_blobs scriptNext scriptType scriptByteValue
           [[Byte.x01]; [Byte.x02; Byte.x03]]).
  - apply script_items.
  - cbn. lia.
Defined.

Lemma extract_rejects_non_blob_witness :
  exists e rdx,
    extract scriptNext scriptType scriptByteValue bufWrite 2
      (openScript (map blob [[Byte.x01]]
                   ++ (IntType, ([], None)) :: [blob [Byte.x02; Byte.x03]])
                  None) []
    = Some (Some e, rdx, snd (writeAll bufWrite [] [[Byte.x01]])) /\
    (fst (writeAll bufWrite [] [[Byte.x01]]) = None -> e = errUnexpectedToken) /\
    (forall e', fst (writeAll bufWrite [] [[Byte.x01]]) = Some e' -> e = e').
Proof.
  apply (extract_rejects_non_blob script (list byte)
           scriptNext scriptType scriptByteValue bufWrite
           [[Byte.x01]] IntType ([], None) [blob [Byte.x02; Byte.x03]]
           _ (mkScript [] None None None)).
  - apply script_items.
  - discriminate.
  - cbn. lia.
Defined.

(** A writer with room for one byte takes the first blob and refuses
    the second; [extract] returns its error and reads no further. *)
Example extract_stops_at_refused_write :
  extract scriptNext scriptType scriptByteValue (capWrite 1) 4
    (openScript (map blob [[Byte.x01]; [Byte.x02; Byte.x03]; [Byte.x04]]) None)
    []
  = Some (Some (ErrLib 1),
          mkScript [blob [Byte.x04]] None
            (Some (blob [Byte.x02; Byte.x03])) None,
          [Byte.x01]).
Proof. reflexivity. Qed.

(** C3 does not hold of the code: [extract] leaves the loop when [Next]
    returns false and returns nil without asking the reader why.  A
    reader that stops with an error after any number of blobs makes
    [extract] return nil, the error still standing in the reader. *)
Theorem extract_returns_nil_on_reader_error (bs : list (list byte)) (e : error) :
  exists rd',
    extract scriptNext scriptType scriptByteValue bufWrite
      (Datatypes.S (length bs)) (openScript (map blob bs) (Some e)) []
    = Some (None, rd', concat bs) /\
    scriptErr rd' = Some e.
Proof.
  exists (mkScript [] (Some e) None (Some e)). split; [|reflexivity].
  rewrite (extract_blobs_to_end _ _ _ _ _ _ bs _
             (mkScript [] (Some e) None (Some e))).
  - now rewrite writeAll_bufWrite.
  - apply script_items.
  - lia.
  - now rewrite writeAll_bufWrite.
Qed.

End ExtractSpec.

(** ** TextRenderer *)

Module DumpSpec.
Import Dump GoFacts.

Section Dump.

Variables V D E : Type.
Variable Decode : D -> (V + error) * D.
Variable Encode : E -> V -> option error * E.
Variable Finish : E -> option error * E.

Lemma no_finish_among_encodes (vals : list V) :
  filter isFinish (map CallEncode vals) = [].
Proof. induction vals as [|val vals IH]; cbn; auto. Qed.

(** The loop over a decoder that yields [vals] and then [err], with
    an encoder that accepts every value. *)
Lemma dump_run (vals : list V) :
  forall (dec dec' : D) (enc enc' : E) (err : error)
         (calls : list (encCall V)) (fuel : nat),
    decodes Decode dec vals err dec' ->
    encodeAll Encode enc vals = Some enc' ->
    (length vals < fuel)%nat ->
    dump Decode Encode Finish fuel dec enc calls
    = if error_eqb err ErrNoInput
      then Some (fst (Finish enc'), dec', snd (Finish enc'),
                 calls ++ map CallEncode vals ++ [CallFinish])
      else Some (Some err, dec', enc', calls ++ map CallEncode vals).
Proof.
  induction vals as [|val vals IH];
    intros dec dec' enc enc' err calls fuel Hdec Henc Hfuel;
    (destruct fuel as [|fuel]; [cbn in Hfuel; lia|]);
    inversion Hdec as [? ? ? Hstop | ? ? dec1 ? ? ? Hval Hrest]; subst;
    cbn [dump encodeAll map] in *.
  - injection Henc as <-. rewrite Hstop.
    destruct (error_eqb err ErrNoInput).
    + now destruct (Finish enc).
    + now rewrite app_nil_r.
  - rewrite Hval. destruct (Encode enc val) as [[e|] enc1]; [discriminate|].
    rewrite (IH dec1 dec' enc1 enc' err (calls ++ [CallEncode val]) fuel
               Hrest Henc ltac:(cbn in Hfuel; lia)).
    now rewrite <- !app_assoc.
Qed.

(** C8: when the decoder has yielded its values and then reports
    [ion.ErrNoInput], [dump] calls [Finish] once, after the [Encode]
    of the last value and as its last act, and returns what [Finish]
    returned: nil when it succeeded.  When the decoder stops with any
    other error, [dump] returns that error and has not called
    [Finish]. *)
Theorem dump_finishes_once_on_no_input
  (vals : list V) (dec dec' : D) (enc enc' : E) (err : error) (fuel : nat) :
  decodes Decode dec vals err dec' ->
  encodeAll Encode enc vals = Some enc' ->
  (length vals < fuel)%nat ->
  (err = ErrNoInput ->
   dump Decode Encode Finish fuel dec enc []
   = Some (fst (Finish enc'), dec', snd (Finish enc'),
           map CallEncode vals ++ [CallFinish]) /\
   length (filter isFinish (map CallEncode vals ++ [CallFinish])) = 1%nat /\
   (fst (Finish enc') = None ->
    exists enc'' calls,
      dump Decode Encode Finish fuel dec enc [] = Some (None, dec', enc'', calls)))
  /\
  (err <> ErrNoInput ->
   dump Decode Encode Finish fuel dec enc []
   = Some (Some err, dec', enc', map CallEncode vals) /\
   filter isFinish (map CallEncode vals) = []).
Proof.
  intros Hdec Henc Hfuel.
  pose proof (dump_run vals dec dec' enc enc' err [] fuel Hdec Henc Hfuel)
    as Hrun.
  cbn [app] in Hrun. split.
  - intros ->. cbn [error_eqb] in Hrun. split; [exact Hrun|]. split.
    + rewrite filter_app, no_finish_among_encodes. reflexivity.
    + intros Hok. rewrite Hrun, Hok. eauto.
  - intros Hne. apply error_eqb_neq in Hne. rewrite Hne in Hrun.
    split; [exact Hrun | apply no_finish_among_encodes].
Qed.

End Dump.

(** *** The decoder that plays back a list *)

Lemma script_decodes {V : Type} (vals : list V) :
  decodes scriptDecode (map inl vals) vals ErrNoInput [].
Proof.
  induction vals as [|val vals IH]; cbn [map].
  - apply decodes_stop. reflexivity.
  - apply decodes_value with (dec1 := map inl vals); [reflexivity | exact IH].
Qed.

(** A decoder that fails on its second call: the error comes back and
    [Finish] is not called. *)
Example dump_decode_error :
  dump scriptDecode logEncode logFinish 3
    [inl 7%nat; inr (ErrLib 2); inl 9%nat] ([], false) []
  = Some (Some (ErrLib 2), [inl 9%nat], ([7%nat], false), [CallEncode 7%nat]).
Proof. reflexivity. Qed.

Lemma dump_finishes_once_on_no_input_witness :
  (ErrNoInput = ErrNoInput ->
   dump scriptDecode logEncode logFinish 3 (map inl [7; 9]%nat) ([], false) []
   = Some (fst (logFinish ([7; 9]%nat, false)), [],
           snd (logFinish ([7; 9]%nat, false)),
           map CallEncode [7; 9]%nat ++ [CallFinish]) /\
   length (filter isFinish (map CallEncode [7; 9]%nat ++ [CallFinish])) = 1%nat /\
   (fst (logFinish ([7; 9]%nat, false)) = None ->
    exists enc'' calls,
      dump scriptDecode logEncode logFinish 3 (map inl [7; 9]%nat) ([], false) []
      = Some (None, [], enc'', calls)))
  /\
  (ErrNoInput <> ErrNoInput ->
   dump scriptDecode logEncode logFinish 3 (map inl [7; 9]%nat) ([], false) []
   = Some (Some ErrNoInput, [], ([7; 9]%nat, false), map CallEncode [7; 9]%nat) /\
   filter isFinish (map CallEncode [7; 9]%nat) = []).
Proof.
  apply (dump_finishes_once_on_no_input nat (list (nat + error)) (list nat * bool)
           scriptDecode logEncode logFinish [7; 9]%nat).
  - apply script_decodes.
  - reflexivity.
  - cbn. lia.
Defined.

End DumpSpec.

(** ** Command line: [s3split] *)

Module ArgsSpec.
Import BVM Args GoFacts.

Lemma bytes_eqb_eq (a b : list byte) : bytes_eqb a b = true <-> a = b.
Proof.
  revert b. induction a as [|x a IH]; intros [|y b]; cbn [bytes_eqb];
    try (split; congruence).
  rewrite andb_true_iff, IH. split.
  - intros [Hxy ->]. now rewrite (Byte.byte_dec_bl _ _ Hxy).
  - intros [= -> ->]. split; [now apply Byte.byte_dec_lb | reflexivity].
Qed.

Lemma bytes_eqb_nil (a : list byte) : bytes_eqb a [] = false <-> a <> [].
Proof. destruct a; cbn; split; congruence. Qed.

Lemma eqb_byte_false (x y : byte) : x <> y -> Byte.eqb x y = false.
Proof.
  intros Hne. destruct (Byte.eqb x y) eqn:Heq; [|reflexivity].
  now apply Byte.byte_dec_bl in Heq.
Qed.

(** [strings.IndexByte] gives -1 or a position inside the string. *)
Lemma IndexByte_range (s : list byte) (c : byte) :
  -1 <= IndexByte s c < len s.
Proof.
  unfold len. induction s as [|b s IH]; cbn [IndexByte length]; [lia|].
  destruct (Byte.eqb b c); [lia|].
  destruct (Z.ltb_spec (IndexByte s c) 0); lia.
Qed.

Lemma IndexByte_absent (s : list byte) (c : byte) :
  IndexByte s c = -1 <-> ~ In c s.
Proof.
  induction s as [|b s IH]; cbn [IndexByte In]; [tauto|].
  pose proof (IndexByte_range s c) as Hr.
  destruct (Byte.eqb b c) eqn:Hbc.
  - apply Byte.byte_dec_bl in Hbc. split; [lia | tauto].
  - apply Byte.eqb_false in Hbc.
    destruct (Z.ltb_spec (IndexByte s c) 0).
    + split; [intros _ | reflexivity].
      intros [Hb | Hin]; [congruence|]. apply IH; [lia | exact Hin].
    + split; [lia|]. intros Hno. exfalso.
      assert (IndexByte s c = -1) by (apply IH; tauto). lia.
Qed.

(** A first occurrence cuts the string in two, the byte sought not
    being in the front part. *)
Lemma IndexByte_found (s : list byte) (c : byte) :
  0 <= IndexByte s c ->
  s = firstn (Z.to_nat (IndexByte s c)) s
      ++ c :: skipn (Z.to_nat (IndexByte s c + 1)) s /\
  ~ In c (firstn (Z.to_nat (IndexByte s c)) s).
Proof.
  induction s as [|b s IH]; cbn [IndexByte]; [lia|].
  destruct (Byte.eqb b c) eqn:Hbc.
  - apply Byte.byte_dec_bl in Hbc. subst. intros _. cbn. tauto.
  - apply Byte.eqb_false in Hbc.
    destruct (Z.ltb_spec (IndexByte s c) 0); [lia|]. intros _.
    destruct (IH ltac:(lia)) as [Hcut Hfront].
    replace (Z.to_nat (IndexByte s c + 1))
      with (Datatypes.S (Z.to_nat (IndexByte s c))) by lia.
    replace (Z.to_nat (IndexByte s c + 1 + 1))
      with (Datatypes.S (Z.to_nat (IndexByte s c + 1))) by lia.
    cbn [firstn skipn app In]. split; [now rewrite <- Hcut|].
    intros [Hb | Hin]; [congruence | tauto].
Qed.

Lemma IndexByte_app (a b : list byte) (c : byte) :
  ~ In c a -> IndexByte (a ++ c :: b) c = len a.
Proof.
  unfold len. induction a as [|x a IH]; intros Hno; cbn [app IndexByte length].
  - now rewrite (Byte.byte_dec_lb (eq_refl c)).
  - cbn [In] in Hno. rewrite eqb_byte_false by tauto.
    rewrite IH by tauto.
    destruct (Z.ltb_spec (Z.of_nat (length a)) 0); lia.
Qed.

Lemma HasPrefix_app (prefix rest : list byte) :
  HasPrefix (prefix ++ rest) prefix = true.
Proof.
  unfold HasPrefix. rewrite length_app, firstn_app, firstn_all, Nat.sub_diag.
  cbn [firstn]. rewrite app_nil_r.
  apply andb_true_iff. split; [apply Nat.leb_le; lia | now apply bytes_eqb_eq].
Qed.

Lemma TrimPrefix_app (prefix rest : list byte) :
  TrimPrefix (prefix ++ rest) prefix = rest.
Proof.
  unfold TrimPrefix. rewrite HasPrefix_app, skipn_app, skipn_all, Nat.sub_diag.
  reflexivity.
Qed.

(** [strings.HasSuffix] holds exactly of the strings that end in the
    suffix. *)
Lemma HasSuffix_true (s suffix : list byte) :
  HasSuffix s suffix = true <-> exists stem, s = stem ++ suffix.
Proof.
  unfold HasSuffix. rewrite andb_true_iff, Nat.leb_le, bytes_eqb_eq. split.
  - intros [Hlen Htail]. exists (firstn (length s - length suffix) s).
    set (k := (length s - length suffix)%nat) in *.
    rewrite <- Htail. symmetry. apply firstn_skipn.
  - intros [stem ->]. rewrite length_app. split; [lia|].
    replace (length stem + length suffix - length suffix)%nat
      with (length stem) by lia.
    now rewrite skipn_app, skipn_all, Nat.sub_diag.
Qed.

(** What [s3split] does with a string cut at its first ['/']. *)
Lemma s3split_cut (name bucket object : list byte) :
  fits (length name) = true ->
  TrimPrefix name (str "s3://") = bucket ++ slash :: object ->
  ~ In slash bucket ->
  s3split name = Split bucket object.
Proof.
  intros Hfits Hout Hno. unfold fits in Hfits. apply Z.ltb_lt in Hfits.
  assert (Hshort : len (bucket ++ slash :: object) <= len name).
  { rewrite <- Hout. unfold TrimPrefix, len.
    destruct (HasPrefix name (str "s3://")); [rewrite length_skipn|]; lia. }
  unfold s3split. rewrite Hout, IndexByte_app by exact Hno.
  assert (Hlen : len (bucket ++ slash :: object) = len bucket + 1 + len object)
    by (unfold len; rewrite length_app; cbn [length]; lia).
  destruct (Z.eqb_spec (len bucket) (-1)); [unfold len in *; lia|].
  destruct (Z.eqb_spec (len bucket) (len (bucket ++ slash :: object)));
    [unfold len in *; lia|].
  cbn [orb]. unfold slice_from.
  rewrite add64_small by (unfold in_int64, len in *; lia).
  rewrite !slice_inside by (unfold len in *; lia).
  f_equal.
  - rewrite Z.sub_0_r. unfold len. rewrite Nat2Z.id. cbn [Z.to_nat skipn].
    now rewrite firstn_app, firstn_all, Nat.sub_diag, app_nil_r.
  - replace (Z.to_nat (len bucket + 1)) with (length (bucket ++ [slash]))
      by (rewrite length_app; cbn [length]; unfold len; lia).
    replace (bucket ++ slash :: object) with ((bucket ++ [slash]) ++ object)
      by (now rewrite <- app_assoc).
    rewrite skipn_app, skipn_all, Nat.sub_diag. cbn [skipn app].
    apply firstn_all2. unfold len. rewrite !length_app. cbn [length]. lia.
Qed.

Lemma s3split_first_slash (name : list byte) :
  fits (length name) = true ->
  0 <= IndexByte (TrimPrefix name (str "s3://")) slash ->
  exists bucket object,
    TrimPrefix name (str "s3://") = bucket ++ slash :: object /\
    ~ In slash bucket /\
    s3split name = Split bucket object.
Proof.
  intros Hfits Hpos.
  destruct (IndexByte_found _ _ Hpos) as [Hcut Hfront].
  eexists _, _. split; [exact Hcut|]. split; [exact Hfront|].
  now apply s3split_cut.
Qed.

Lemma s3split_cut_inv (name bucket object : list byte) :
  fits (length name) = true ->
  s3split name = Split bucket object ->
  TrimPrefix name (str "s3://") = bucket ++ slash :: object /\
  ~ In slash bucket.
Proof.
  intros Hfits Hsplit.
  pose proof (IndexByte_range (TrimPrefix name (str "s3://")) slash) as Hr.
  destruct (Z.eq_dec (IndexByte (TrimPrefix name (str "s3://")) slash) (-1))
    as [Hnone | Hsome].
  - unfold s3split in Hsplit. rewrite Hnone in Hsplit. discriminate.
  - destruct (s3split_first_slash name Hfits ltac:(lia))
      as (b & o & Hcut & Hfront & Hrun).
    rewrite Hrun in Hsplit. injection Hsplit as <- <-. tauto.
Qed.

(** X1: when [s3split] returns, the name without a leading ["s3://"]
    is the bucket, a ['/'] and the object, and the bucket holds no
    ['/']: the cut is at the first one.  The name is got back by
    putting the three together again, after ["s3://"] if the name
    began with it. *)
Theorem s3split_bucket_slash_object (name bucket object : list byte) :
  fits (length name) = true ->
  s3split name = Split bucket object ->
  TrimPrefix name (str "s3://") = bucket ++ slash :: object /\
  ~ In slash bucket /\
  name = (if HasPrefix name (str "s3://") then str "s3://" else [])
         ++ bucket ++ slash :: object.
Proof.
  intros Hfits Hsplit.
  destruct (s3split_cut_inv name bucket object Hfits Hsplit) as [Hcut Hno].
  split; [exact Hcut|]. split; [exact Hno|].
  rewrite <- Hcut. unfold TrimPrefix, HasPrefix.
  destruct (Nat.leb_spec (length (str "s3://")) (length name)) as [Hlen | Hlen];
    cbn [andb]; [|reflexivity].
  destruct (bytes_eqb (firstn (length (str "s3://")) name) (str "s3://"))
    eqn:Heq; [|reflexivity].
  apply bytes_eqb_eq in Heq. rewrite <- Heq at 1. apply eq_sym, firstn_skipn.
Qed.

Lemma s3split_bucket_slash_object_witness :
  TrimPrefix (str "s3://bucket/db/x.ion.zst") (str "s3://")
  = str "bucket" ++ slash :: str "db/x.ion.zst" /\
  ~ In slash (str "bucket") /\
  str "s3://bucket/db/x.ion.zst"
  = (if HasPrefix (str "s3://bucket/db/x.ion.zst") (str "s3://")
     then str "s3://" else [])
    ++ str "bucket" ++ slash :: str "db/x.ion.zst".
Proof.
  apply (s3split_bucket_slash_object (str "s3://bucket/db/x.ion.zst")).
  - reflexivity.
  - reflexivity.
Defined.

(** X2: [s3split] never panics, and it leaves through [exit] exactly
    when the name, without a leading ["s3://"], holds no ['/'].  The
    other test of the source, [split == len(out)], is never true, so a
    name that ends in its only ['/'] is split, with an empty object. *)
Theorem s3split_invalid_iff_no_slash (name : list byte) :
  fits (length name) = true ->
  s3split name <> SplitPanic /\
  ((exists out, s3split name = Invalid out)
   <-> ~ In slash (TrimPrefix name (str "s3://"))) /\
  IndexByte (TrimPrefix name (str "s3://")) slash
  <> len (TrimPrefix name (str "s3://")).
Proof.
  intros Hfits.
  pose proof (IndexByte_range (TrimPrefix name (str "s3://")) slash) as Hr.
  split; [|split; [|lia]].
  - destruct (Z.eq_dec (IndexByte (TrimPrefix name (str "s3://")) slash) (-1))
      as [Hnone | Hsome].
    + unfold s3split. rewrite Hnone. discriminate.
    + destruct (s3split_first_slash name Hfits ltac:(lia))
        as (b & o & _ & _ & ->). discriminate.
  - rewrite <- IndexByte_absent. split.
    + intros [out Hinv].
      destruct (Z.eq_dec (IndexByte (TrimPrefix name (str "s3://")) slash) (-1))
        as [Hnone | Hsome]; [exact Hnone|].
      destruct (s3split_first_slash name Hfits ltac:(lia))
        as (b & o & _ & _ & Hrun). congruence.
    + intros Hnone. eexists. unfold s3split. rewrite Hnone. reflexivity.
Qed.

Lemma s3split_invalid_iff_no_slash_witness :
  s3split (str "bucket/") <> SplitPanic /\
  ((exists out, s3split (str "bucket/") = Invalid out)
   <-> ~ In slash (TrimPrefix (str "bucket/") (str "s3://"))) /\
  IndexByte (TrimPrefix (str "bucket/") (str "s3://")) slash
  <> len (TrimPrefix (str "bucket/") (str "s3://")).
Proof.
  apply (s3split_invalid_iff_no_slash (str "bucket/")). reflexivity.
Defined.

(** X3: a bucket without ['/'], a ['/'] and any object, with
    ["s3://"] in front, come apart again as that bucket and that
    object; and so they do without ["s3://"] in front, unless the
    three together begin with ["s3://"] themselves. *)
Theorem s3split_of_bucket_slash_object (bucket object : list byte) :
  fits (5 + length (bucket ++ slash :: object)) = true ->
  ~ In slash bucket ->
  s3split (str "s3://" ++ bucket ++ slash :: object) = Split bucket object /\
  (HasPrefix (bucket ++ slash :: object) (str "s3://") = false ->
   s3split (bucket ++ slash :: object) = Split bucket object).
Proof.
  intros Hfits Hno. split.
  - apply s3split_cut; [|apply TrimPrefix_app | exact Hno].
    now rewrite length_app.
  - intros Hplain. apply s3split_cut; [| |exact Hno].
    + unfold fits in *. apply Z.ltb_lt in Hfits. apply Z.ltb_lt. lia.
    + unfold TrimPrefix. now rewrite Hplain.
Qed.

Lemma s3split_of_bucket_slash_object_witness :
  s3split (str "s3://" ++ str "bucket" ++ slash :: [])
  = Split (str "bucket") [] /\
  (HasPrefix (str "bucket" ++ slash :: []) (str "s3://") = false ->
   s3split (str "bucket" ++ slash :: []) = Split (str "bucket") []).
Proof.
  apply (s3split_of_bucket_slash_object (str "bucket") []).
  - reflexivity.
  - cbn. intuition discriminate.
Defined.

End ArgsSpec.

(** ** Start-up: [main] *)

Module MainSpec.
Import Trailer BVM Args Stream GoFacts ArgsSpec.

Section Main.

Variable S : Type.
Variable Client : Type.
Variable UserHomeDir : list byte + error.
Variable New : list byte -> list byte -> Client + error.
Variable GetObject : Client -> list byte -> list byte -> (Object * S) + error.

(** X4: [main] gets as far as its input stream only with an endpoint
    that is not empty and a locator that, without a leading ["s3://"],
    is a bucket that is neither empty nor holds a ['/'], a ['/'], and
    an object whose name ends in [.ion.zst] or [.10n.zst]; the stream
    is then the marker reader over the object just opened, limited to
    the length that [sizeWithoutTrailer] returned without error. *)
Theorem main_streams_checked_input
  (dashe dashf endpoint bucket object : list byte)
  (input : bvmReader (LimitedReader S)) :
  fits (length dashf) = true ->
  main UserHomeDir New GetObject dashe dashf
  = Streaming endpoint bucket object input ->
  endpoint = dashe /\ dashe <> [] /\
  bucket <> [] /\ ~ In slash bucket /\
  TrimPrefix dashf (str "s3://") = bucket ++ slash :: object /\
  (exists stem,
      object = stem ++ str ".ion.zst" \/ object = stem ++ str ".10n.zst") /\
  exists home client handle obj size,
    UserHomeDir = inl home /\
    New dashe home = inl client /\
    GetObject client bucket object = inl (handle, obj) /\
    sizeWithoutTrailer (inl handle) = Returned size None /\
    input = newBVMReader (mkLimited obj size).
Proof.
  intros Hfits Hmain. unfold main in Hmain.
  destruct (bytes_eqb dashe []) eqn:He; [discriminate|].
  destruct (bytes_eqb dashf []) eqn:Hf; [discriminate|].
  cbn [orb] in Hmain.
  destruct (s3split dashf) as [out | b o |] eqn:Hsplit; try discriminate.
  destruct (bytes_eqb b []) eqn:Hb; [discriminate|].
  destruct (HasSuffix o (str ".ion.zst")) eqn:Hion;
    destruct (HasSuffix o (str ".10n.zst")) eqn:H10n;
    cbn [negb andb] in Hmain; try discriminate;
    (destruct UserHomeDir as [home | err] eqn:Hhome; [|discriminate];
     destruct (New dashe home) as [client | err] eqn:Hnew; [|discriminate];
     destruct (GetObject client b o) as [[handle obj] | err] eqn:Hget;
       cbn [only_handle] in Hmain; [|discriminate];
     destruct (sizeWithoutTrailer (inl handle)) as [err | size [err|] |] eqn:Hsize;
       try discriminate;
     injection Hmain as <- <- <- <-;
     destruct (s3split_cut_inv dashf b o Hfits Hsplit) as [Hcut Hno];
     apply bytes_eqb_nil in He, Hb;
     repeat (split; [assumption || reflexivity|]);
     split;
     [ first [ apply HasSuffix_true in Hion; destruct Hion as [stem ->];
               exists stem; now left
             | apply HasSuffix_true in H10n; destruct H10n as [stem ->];
               exists stem; now right ]
     | exists home, client, handle, obj, size; auto ]).
Qed.

(** X5: with an endpoint that is not empty, and for a bucket that is
    neither empty nor holds a ['/'] and an object whose name ends in
    [.ion.zst] or [.10n.zst], the locator ["s3://bucket/object"] takes
    [main] to its input stream, when the home directory is found, the
    client is made, the object opens and [sizeWithoutTrailer] returns
    a length: the stream is the marker reader over the object limited
    to that length. *)
Theorem main_accepts_locator
  (dashe bucket object stem home : list byte) (client : Client)
  (handle : Object) (obj : S) (size : Z) :
  dashe <> [] ->
  bucket <> [] -> ~ In slash bucket ->
  object = stem ++ str ".ion.zst" \/ object = stem ++ str ".10n.zst" ->
  fits (5 + length (bucket ++ slash :: object)) = true ->
  UserHomeDir = inl home ->
  New dashe home = inl client ->
  GetObject client bucket object = inl (handle, obj) ->
  sizeWithoutTrailer (inl handle) = Returned size None ->
  main UserHomeDir New GetObject dashe (str "s3://" ++ bucket ++ slash :: object)
  = Streaming dashe bucket object (newBVMReader (mkLimited obj size)).
Proof.
  intros He Hb Hno Hname Hfits Hhome Hnew Hget Hsize. unfold main.
  apply bytes_eqb_nil in He, Hb. rewrite He. cbn [orb app str bytes_eqb].
  change (list_byte_of_string "s3://" ++ bucket ++ slash :: object)
    with (str "s3://" ++ bucket ++ slash :: object).
  rewrite (s3split_cut _ bucket object); [|now rewrite length_app
                                          |apply TrimPrefix_app | exact Hno].
  rewrite Hb.
  assert (Hsuf : negb (HasSuffix object (str ".ion.zst"))
                 && negb (HasSuffix object (str ".10n.zst")) = false).
  { destruct Hname as [-> | ->].
    - rewrite (proj2 (HasSuffix_true _ _)) by eauto. reflexivity.
    - rewrite (proj2 (HasSuffix_true (stem ++ str ".10n.zst") (str ".10n.zst")))
        by eauto.
      apply andb_false_r. }
  rewrite Hsuf, Hhome, Hnew, Hget. cbn [only_handle]. rewrite Hsize.
  reflexivity.
Qed.

End Main.

Lemma main_streams_checked_input_witness :
  str "host" = str "host" /\ str "host" <> [] /\
  str "b" <> [] /\ ~ In slash (str "b") /\
  TrimPrefix (str "b/k.ion.zst") (str "s3://")
  = str "b" ++ slash :: str "k.ion.zst" /\
  (exists stem,
      str "k.ion.zst" = stem ++ str ".ion.zst" \/
      str "k.ion.zst" = stem ++ str ".10n.zst") /\
  exists home client handle obj size,
    @inl (list byte) error (str "/home/u") = inl home /\
    memNew (str "host") home = inl client /\
    memGetObject stored client (str "b") (str "k.ion.zst") = inl (handle, obj) /\
    sizeWithoutTrailer (inl handle) = Returned size None /\
    newBVMReader (mkLimited stored 2) = newBVMReader (mkLimited obj size).
Proof.
  apply (main_streams_checked_input (list byte) unit
           (inl (str "/home/u")) memNew (memGetObject stored)
           (str "host") (str "b/k.ion.zst")).
  - reflexivity.
  - reflexivity.
Defined.

Lemma main_accepts_locator_witness :
  main (inl (str "/home/u")) memNew (memGetObject stored)
    (str "host") (str "s3://" ++ str "b" ++ slash :: str "k.10n.zst")
  = Streaming (str "host") (str "b") (str "k.10n.zst")
      (newBVMReader (mkLimited stored 2)).
Proof.
  apply (main_accepts_locator (list byte) unit
           (inl (str "/home/u")) memNew (memGetObject stored)
           (str "host") (str "b") (str "k.10n.zst") (str "k") (str "/home/u")
           tt (memObject stored) stored 2).
  - discriminate.
  - discriminate.
  - cbn. intuition discriminate.
  - right. reflexivity.
  - reflexivity.
  - reflexivity.
  - reflexivity.
  - reflexivity.
  - reflexivity.
Defined.

End MainSpec.

(** ** The input stream of [main] *)

Module StreamSpec.
Import Trailer BVM Args Stream GoFacts TrailerSpec BVMSpec.

(** *** Two sources that answer alike *)

Section Alike.

Variables S1 S2 : Type.
Variable read1 : S1 -> list byte -> ioResult * S1.
Variable read2 : S2 -> list byte -> ioResult * S2.

(** States of the two sources that answer every read alike and stay so. *)
Variable alike : S1 -> S2 -> Prop.
Hypothesis alike_call :
  forall s1 s2 p,
    alike s1 s2 ->
    fst (call read1 s1 p) = fst (call read2 s2 p) /\
    alike (snd (call read1 s1 p)) (snd (call read2 s2 p)).

Lemma Read_alike (rd1 : bvmReader S1) (rd2 : bvmReader S2) (p : list byte) :
  (alike (r rd1) (r rd2) /\ n rd1 = n rd2) ->
  match Read read1 rd1 p, Read read2 rd2 p with
  | Some (res1, rd1'), Some (res2, rd2') =>
      res1 = res2 /\ (alike (r rd1') (r rd2') /\ n rd1' = n rd2')
  | None, None => True
  | _, _ => False
  end.
Proof.
  intros [Hr Hn]. unfold Read. rewrite Hn.
  destruct (n rd2 <? 4).
  - cbv zeta.
    destruct (slice bvm (n rd2) _) as [src|]; [|exact I].
    destruct (copy p src) as [p1 c].
    destruct (_ =? len p).
    + split; [reflexivity|]. split; [exact Hr | reflexivity].
    + destruct (slice_from p1 _) as [rest|]; [|exact I]. cbn [r n].
      destruct (alike_call (r rd1) (r rd2) rest Hr) as [Hres Hnext].
      destruct (call read1 (r rd1) rest) as [res1 s1'].
      destruct (call read2 (r rd2) rest) as [res2 s2'].
      cbn [fst snd] in Hres, Hnext. subst res2.
      destruct (io_err res1); (split; [reflexivity|]);
        (split; [exact Hnext | reflexivity]).
  - destruct (alike_call (r rd1) (r rd2) p Hr) as [Hres Hnext].
    destruct (call read1 (r rd1) p) as [res1 s1'].
    destruct (call read2 (r rd2) p) as [res2 s2'].
    cbn [fst snd] in Hres, Hnext. subst res2.
    split; [reflexivity|]. split; [exact Hnext | reflexivity].
Qed.

Lemma readAll_alike (sizes : list nat) :
  forall (rd1 : bvmReader S1) (rd2 : bvmReader S2) (acc : list byte),
    (alike (r rd1) (r rd2) /\ n rd1 = n rd2) ->
    match readAll read1 sizes rd1 acc, readAll read2 sizes rd2 acc with
    | Some (out1, err1, rd1'), Some (out2, err2, rd2') =>
        out1 = out2 /\ err1 = err2 /\ (alike (r rd1') (r rd2') /\ n rd1' = n rd2')
    | None, None => True
    | _, _ => False
    end.
Proof.
  induction sizes as [|k sizes IH]; intros rd1 rd2 acc Hrd; cbn [readAll].
  - auto.
  - pose proof (Read_alike rd1 rd2 (repeat Byte.x00 k) Hrd) as Hstep.
    destruct (Read read1 rd1 _) as [[res1 rd1']|];
      destruct (Read read2 rd2 _) as [[res2 rd2']|]; try contradiction;
      [|exact I].
    destruct Hstep as [<- Hrd'].
    destruct (io_err res1); [auto|]. apply IH, Hrd'.
Qed.

End Alike.

(** *** The limited reader over an object in memory *)

(** With nothing left to give, the limited reader answers [io.EOF]
    and does not touch what it wraps. *)
Lemma limited_call_spent (content : list byte) (size : Z) (p : list byte) :
  size <= 0 ->
  call (limitedRead bytesRead) (mkLimited content size) p
  = (mkIO p 0 (Some EOF), mkLimited content size).
Proof.
  intros Hsize. unfold call, limitedRead. cbn [N].
  destruct (Z.leb_spec size 0); [|lia].
  unfold written. cbn [io_buf io_n io_err length skipn app].
  now rewrite firstn_all.
Qed.

Lemma limited_window (p : list byte) (size : Z) :
  0 < size ->
  (if len p >? size then firstn (Z.to_nat size) p else p)
  = firstn (Nat.min (Z.to_nat size) (length p)) p.
Proof.
  intros Hsize. unfold len.
  destruct (Z.gtb_spec (Z.of_nat (length p)) size).
  - now rewrite Nat.min_l by lia.
  - rewrite Nat.min_r by lia. symmetry. apply firstn_all.
Qed.

(** The limited reader over the bytes [s] with [size] to give answers
    as a source over the first [size] bytes of [s] does. *)
Lemma limited_call_bytes (s : list byte) (size : Z) (p : list byte) :
  in_int64 size ->
  exists res s' size',
    call (limitedRead bytesRead) (mkLimited s size) p
    = (res, mkLimited s' size') /\
    call bytesRead (firstn (Z.to_nat size) s) p
    = (res, firstn (Z.to_nat size') s') /\
    in_int64 size'.
Proof.
  intros Hrange.
  destruct (Z_le_gt_dec size 0) as [Hspent | Hleft].
  - rewrite limited_call_spent by exact Hspent.
    replace (Z.to_nat size) with 0%nat by lia. cbn [firstn].
    rewrite call_bytesRead_empty.
    exists (mkIO p 0 (Some EOF)), s, size.
    replace (Z.to_nat size) with 0%nat by lia. auto.
  - unfold call at 1. unfold limitedRead. cbn [N R].
    destruct (Z.leb_spec size 0); [lia|].
    rewrite limited_window by lia.
    set (k := Nat.min (Z.to_nat size) (length p)).
    assert (Hk : length (firstn k p) = k)
      by (rewrite length_firstn; unfold k; lia).
    destruct s as [|b s].
    + rewrite call_bytesRead_empty, firstn_nil, call_bytesRead_empty.
      cbn [io_n io_err io_buf]. unfold written. cbn [io_buf].
      rewrite Hk, firstn_skipn, firstn_all.
      rewrite sub64_small by (unfold in_int64 in *; lia).
      exists (mkIO p 0 (Some EOF)), [], (size - 0).
      rewrite firstn_nil. unfold in_int64 in *. repeat split; lia.
    + set (s0 := b :: s) in *.
      assert (Hs0 : s0 <> []) by discriminate.
      rewrite (call_bytesRead_some s0 (firstn k p) Hs0), Hk.
      set (j := Nat.min k (length s0)).
      assert (Hfront : firstn (Z.to_nat size) s0 <> []).
      { unfold s0. destruct (Z.to_nat size) eqn:Hz; [lia | discriminate]. }
      rewrite (call_bytesRead_some _ p Hfront), length_firstn.
      replace (Nat.min (length p) (Nat.min (Z.to_nat size) (length s0)))
        with j by (unfold j, k; lia).
      cbn [io_n io_err io_buf].
      rewrite sub64_small by (unfold in_int64 in *; unfold j, k; lia).
      exists (mkIO (firstn j s0 ++ skipn j p) (Z.of_nat j) None),
        (skipn j s0), (size - Z.of_nat j).
      split; [|split].
      * f_equal. f_equal. unfold written. cbn [io_buf].
        rewrite length_app, length_firstn, length_skipn, Hk.
        replace (Nat.min j (length s0) + (k - j))%nat with k
          by (unfold j; lia).
        rewrite <- app_assoc.
        replace (skipn j (firstn k p) ++ skipn k p) with (skipn j p).
        -- apply firstn_all2. rewrite length_app, length_firstn, length_skipn.
           unfold j, k. lia.
        -- rewrite <- (firstn_skipn k p) at 1.
           rewrite skipn_app, Hk.
           replace (j - k)%nat with 0%nat by (unfold j; lia). reflexivity.
      * f_equal.
        -- f_equal. f_equal. rewrite firstn_firstn. f_equal. unfold j, k. lia.
        -- rewrite skipn_firstn_comm. f_equal. unfold j, k. lia.
      * unfold in_int64 in *. unfold j, k. lia.
Qed.

(** Over a source with nothing in it the caller collects marker bytes
    only, and stops at the first read that has to ask the source. *)
Lemma readAll_bytes_empty (sizes : list nat) :
  forall (m : nat) (acc : list byte),
    (m <= 4)%nat ->
    exists j err rd',
      readAll bytesRead sizes (mkBVM [] (Z.of_nat m)) acc
      = Some (acc ++ firstn j (skipn m bvm), err, rd') /\
      r rd' = [].
Proof.
  induction sizes as [|k sizes IH]; intros m acc Hm; cbn [readAll].
  - exists 0%nat, None, (mkBVM [] (Z.of_nat m)).
    cbn [firstn r]. now rewrite app_nil_r.
  - destruct (Nat.eq_dec m 4) as [-> | Hm4].
    + change (Z.of_nat 4) with 4. rewrite Read_bytes_drained.
      exists 0%nat, (Some EOF), (mkBVM [] 4). cbn [io_err firstn r].
      split; reflexivity.
    + destruct (le_gt_dec k (4 - m)) as [Hshort | Hlong].
      * destruct (Read_bytes_marker [] m k ltac:(lia) Hshort)
          as (res & -> & -> & ->).
        destruct (IH (m + k)%nat (acc ++ firstn k (skipn m bvm)) ltac:(lia))
          as (j & err & rd' & -> & Hsrc).
        exists (k + j)%nat, err, rd'. split; [|exact Hsrc].
        rewrite <- app_assoc. do 3 f_equal.
        pose proof (stream_after_marker m k j [] Hm Hshort) as Hcut.
        rewrite !app_nil_r in Hcut. now rewrite Hcut.
      * assert (Hn : 0 <= n (mkBVM (@nil byte) (Z.of_nat m)) < 4)
          by (cbn [n]; lia).
        assert (Hp : 4 - n (mkBVM (@nil byte) (Z.of_nat m))
                     < len (repeat Byte.x00 k))
          by (unfold len; cbn [n]; rewrite repeat_length; lia).
        rewrite (Read_boundary _ _ _ _ _ _ Hn Hp (call_bytesRead_empty _)).
        cbn [io_err io_n io_buf].
        exists 0%nat, (Some EOF), (mkBVM [] 4). cbn [firstn r].
        split; reflexivity.
Qed.

(** X6: for an object laid out as payload, trailer and the length of
    the trailer in four bytes, [sizeWithoutTrailer] returns the length
    of the payload, and the stream [main] builds with it (the marker
    reader over the object limited to that length) hands a caller the
    first [list_sum sizes] bytes of the marker followed by the
    payload: no byte of the trailer or of the offset gets through.
    This holds when the payload is not empty or no read straddles the
    end of the marker. *)
Theorem stream_is_marker_then_payload
  (payload trailer : list byte) (sizes : list nat) :
  len trailer < 2 ^ 32 ->
  len (layout payload trailer) < 2 ^ 63 ->
  forallb fits sizes = true ->
  payload <> [] \/ straddles 0 sizes = false ->
  sizeWithoutTrailer (inl (memObject (layout payload trailer)))
  = Returned (len payload) None /\
  exists err rd',
    readAll (limitedRead bytesRead) sizes
      (newBVMReader (mkLimited (layout payload trailer) (len payload))) []
    = Some (firstn (list_sum sizes) (bvm ++ payload), err, rd') /\
    (err <> None ->
     firstn (list_sum sizes) (bvm ++ payload) = bvm ++ payload).
Proof.
  intros Htrailer Hobject Hfits Hsrc.
  assert (Hlen : len (layout payload trailer)
                 = len payload + len trailer + 4).
  { unfold layout, len. rewrite !length_app. cbn [le32 length]. lia. }
  split.
  - unfold layout. rewrite app_assoc.
    rewrite sizeWithoutTrailer_memObject.
    + f_equal. unfold len. rewrite length_app. lia.
    + unfold len in *. lia.
    + unfold len in *. rewrite length_app. lia.
  - pose proof (readAll_alike _ _ (limitedRead bytesRead) bytesRead
                  (fun l s2 => s2 = firstn (Z.to_nat (N l)) (R l)
                               /\ in_int64 (N l))) as Hsim.
    specialize (Hsim
      ltac:(intros [s size] s2 p [-> Hrange]; cbn [N R] in *;
            destruct (limited_call_bytes s size p Hrange)
              as (res & s' & size' & -> & -> & Hrange');
            cbn [fst snd N R]; auto)).
    specialize (Hsim sizes
                  (newBVMReader (mkLimited (layout payload trailer) (len payload)))
                  (newBVMReader payload) []).
    destruct (readAll_bytes sizes 0%nat payload [] ltac:(lia) Hfits Hsrc)
      as (err & rd2 & Hrun & Hend).
    change (skipn 0 bvm) with bvm in Hrun, Hend. cbn [app] in Hrun.
    change (mkBVM payload (Z.of_nat 0)) with (newBVMReader payload) in Hrun.
    rewrite Hrun in Hsim.
    destruct (readAll (limitedRead bytesRead) sizes _ [])
      as [[[out1 err1] rd1]|] eqn:Hrun1.
    + destruct Hsim as (-> & -> & _).
      * cbn [newBVMReader r n N R]. split; [|reflexivity]. split.
        -- unfold len, layout. rewrite Nat2Z.id, firstn_app, firstn_all,
             Nat.sub_diag. cbn [firstn]. now rewrite app_nil_r.
        -- unfold in_int64, len in *. lia.
      * exists err, rd1. split; [reflexivity | exact Hend].
    + exfalso. apply Hsim. cbn [newBVMReader r n N R]. split; [|reflexivity].
      split.
      * unfold len, layout. rewrite Nat2Z.id, firstn_app, firstn_all,
          Nat.sub_diag. cbn [firstn]. now rewrite app_nil_r.
      * unfold in_int64, len in *. lia.
Qed.

Lemma stream_is_marker_then_payload_witness :
  sizeWithoutTrailer
    (inl (memObject (layout [Byte.x11; Byte.x12]
                            [Byte.x21; Byte.x22; Byte.x23])))
  = Returned (len [Byte.x11; Byte.x12]) None /\
  exists err rd',
    readAll (limitedRead bytesRead) [3; 100; 5]%nat
      (newBVMReader
         (mkLimited (layout [Byte.x11; Byte.x12]
                            [Byte.x21; Byte.x22; Byte.x23])
                    (len [Byte.x11; Byte.x12]))) []
    = Some (firstn (list_sum [3; 100; 5]%nat) (bvm ++ [Byte.x11; Byte.x12]),
            err, rd') /\
    (err <> None ->
     firstn (list_sum [3; 100; 5]%nat) (bvm ++ [Byte.x11; Byte.x12])
     = bvm ++ [Byte.x11; Byte.x12]).
Proof.
  apply (stream_is_marker_then_payload [Byte.x11; Byte.x12]
           [Byte.x21; Byte.x22; Byte.x23] [3; 100; 5]%nat).
  - reflexivity.
  - reflexivity.
  - reflexivity.
  - left. discriminate.
Defined.

(** X7: when the length given to the limited reader is zero or
    negative, as [sizeWithoutTrailer] returns it for an offset beyond
    the object, the stream [main] builds is that of an empty payload:
    a caller collects at most a part of the marker, and no byte of the
    object is read. *)
Theorem spent_stream_is_marker_prefix
  (content : list byte) (size : Z) (sizes : list nat) :
  size <= 0 ->
  exists j err rd',
    readAll (limitedRead bytesRead) sizes
      (newBVMReader (mkLimited content size)) []
    = Some (firstn j bvm, err, rd') /\
    r rd' = mkLimited content size.
Proof.
  intros Hsize.
  pose proof (readAll_alike _ _ (limitedRead bytesRead) bytesRead
                (fun l s2 => l = mkLimited content size /\ s2 = [])) as Hsim.
  specialize (Hsim
    ltac:(intros l s2 p [-> ->];
          rewrite limited_call_spent by exact Hsize;
          rewrite call_bytesRead_empty; cbn [fst snd]; auto)).
  specialize (Hsim sizes (newBVMReader (mkLimited content size))
                (newBVMReader []) []).
  destruct (readAll_bytes_empty sizes 0%nat [] ltac:(lia))
    as (j & err & rd2 & Hrun & Hsrc).
  change (skipn 0 bvm) with bvm in Hrun. cbn [app] in Hrun.
  change (mkBVM (@nil byte) (Z.of_nat 0)) with (newBVMReader (@nil byte)) in Hrun.
  rewrite Hrun in Hsim.
  destruct (readAll (limitedRead bytesRead) sizes _ [])
    as [[[out1 err1] rd1]|] eqn:Hrun1.
  - destruct Hsim as (-> & -> & [Hl _] & _);
      [cbn [newBVMReader r n]; auto|].
    exists j, err, rd1. split; [reflexivity | exact Hl].
  - exfalso. apply Hsim. cbn [newBVMReader r n]. auto.
Qed.

Lemma spent_stream_is_marker_prefix_witness :
  exists j err rd',
    readAll (limitedRead bytesRead) [3; 100; 5]%nat
      (newBVMReader (mkLimited stored (-5))) []
    = Some (firstn j bvm, err, rd') /\
    r rd' = mkLimited stored (-5).
Proof.
  apply (spent_stream_is_marker_prefix stored (-5) [3; 100; 5]%nat). lia.
Defined.

End StreamSpec.

(** ** HeaderSynthesizer: reads inside and across the marker *)

Module BVMReads.
Import BVM GoFacts BVMSpec.

Section Reader.

Variable S : Type.
Variable srcRead : S -> list byte -> ioResult * S.

Lemma readAll_inside_marker (sizes : list nat) :
  forall (m : nat) (input : S) (acc : list byte),
    forallb (fun k => (0 <? k)%nat) sizes = true ->
    (m + list_sum sizes <= 4)%nat ->
    readAll srcRead sizes (mkBVM input (Z.of_nat m)) acc
    = Some (acc ++ firstn (list_sum sizes) (skipn m bvm), None,
            mkBVM input (Z.of_nat (m + list_sum sizes))).
Proof.
  induction sizes as [|k sizes IH]; intros m input acc Hpos Hsum.
  - cbn [readAll list_sum firstn]. now rewrite app_nil_r, Nat.add_0_r.
  - change (list_sum (k :: sizes)) with (k + list_sum sizes)%nat in *.
    cbn [forallb] in Hpos. apply andb_prop in Hpos as [Hk Hpos].
    apply Nat.ltb_lt in Hk. cbn [readAll].
    rewrite Read_marker
      by (unfold len; cbn [n]; rewrite ?repeat_length; lia).
    cbn [io_err n r]. unfold len. rewrite repeat_length, <- Nat2Z.inj_add.
    rewrite IH by (assumption || lia).
    rewrite <- app_assoc, Nat.add_assoc. do 3 f_equal.
    pose proof (stream_after_marker m k (list_sum sizes) [] ltac:(lia) ltac:(lia))
      as Hcut.
    rewrite !app_nil_r in Hcut. rewrite Hcut, Nat2Z.id. do 2 f_equal.
    rewrite <- (app_nil_r (firstn k (skipn m bvm))) at 1.
    apply reported_prefix. unfold len.
    rewrite length_firstn, length_skipn. cbn [bvm length]. lia.
Qed.

(** X8: reads with buffers that are not empty and hold four bytes or
    fewer between them hand out the marker, byte after byte, whatever
    the wrapped source is: no error is returned and the source is not
    read, its state being what it was. *)
Theorem marker_comes_first_untouched_source (input : S) (sizes : list nat) :
  forallb (fun k => (0 <? k)%nat) sizes = true ->
  (list_sum sizes <= 4)%nat ->
  readAll srcRead sizes (newBVMReader input) []
  = Some (firstn (list_sum sizes) bvm, None,
          mkBVM input (Z.of_nat (list_sum sizes))).
Proof.
  intros Hpos Hsum.
  apply (readAll_inside_marker sizes 0%nat input [] Hpos Hsum).
Qed.

(** X9: a read across the end of the marker that the source answers
    without error returns the rest of the marker followed by the bytes
    of that one source read, and counts them together; the marker is
    then used up. *)
Theorem Read_boundary_joins (rd : bvmReader S) (p : list byte)
  (res : ioResult) (s' : S) :
  0 <= n rd < 4 -> 4 - n rd < len p -> len p < 2 ^ 63 ->
  call srcRead (r rd) (skipn (Z.to_nat (4 - n rd)) p) = (res, s') ->
  io_err res = None ->
  0 <= io_n res <= len p - (4 - n rd) ->
  exists out,
    Read srcRead rd p = Some (out, mkBVM s' 4) /\
    io_err out = None /\
    io_n out = 4 - n rd + io_n res /\
    reported out = skipn (Z.to_nat (n rd)) bvm ++ reported res.
Proof.
  intros Hn Hp Hfit Hcall Herr Hcount.
  rewrite (Read_boundary _ _ rd p res s' Hn Hp Hcall), Herr.
  rewrite add64_small by (unfold in_int64, len in *; lia).
  eexists. split; [reflexivity|]. split; [reflexivity|].
  split; [reflexivity|].
  unfold reported. cbn [io_n io_buf].
  pose proof (marker_left_length (n rd) ltac:(lia)) as Hleft.
  unfold len in Hleft.
  rewrite firstn_app, firstn_all2 by lia. do 2 f_equal. lia.
Qed.

End Reader.

Lemma marker_comes_first_untouched_source_witness :
  readAll (endRead (ErrLib 7)) [1; 2; 1]%nat (newBVMReader content3) []
  = Some (firstn (list_sum [1; 2; 1]%nat) bvm, None,
          mkBVM content3 (Z.of_nat (list_sum [1; 2; 1]%nat))).
Proof.
  apply (marker_comes_first_untouched_source (list byte) (endRead (ErrLib 7))
           content3 [1; 2; 1]%nat).
  - reflexivity.
  - cbn. lia.
Defined.

Lemma Read_boundary_joins_witness :
  exists out,
    Read bytesRead (mkBVM content3 1) (repeat Byte.x00 5)
    = Some (out, mkBVM [Byte.x13] 4) /\
    io_err out = None /\
    io_n out = 4 - 1 + 2 /\
    reported out
    = skipn (Z.to_nat 1) bvm
      ++ reported (mkIO [Byte.x11; Byte.x12] 2 None).
Proof.
  apply (Read_boundary_joins (list byte) bytesRead (mkBVM content3 1)
           (repeat Byte.x00 5) (mkIO [Byte.x11; Byte.x12] 2 None) [Byte.x13]).
  - cbn. lia.
  - cbn. lia.
  - reflexivity.
  - reflexivity.
  - reflexivity.
  - cbn. lia.
Defined.

End BVMReads.

(** ** EnvelopeExtractor: the errors of the reader and of the writer *)

Module ExtractErrors.
Import Extract GoFacts ExtractSpec.

Section Extract.

Variables R W : Type.
Variable Next : R -> bool * R.
Variable Type' : R -> ionType.
Variable ByteValue : R -> list byte * option error.
Variable Write : W -> list byte -> (Z * option error) * W.

(** X10: when the byte value of a blob cannot be had, [extract] returns
    the error of [ByteValue], and the writer is left as the blobs
    before it left it: nothing is written for that blob or for any
    value after it.  (If the writer had refused one of the earlier
    blobs, its error was returned then.) *)
Theorem extract_returns_ByteValue_error (front : list (list byte))
  (val : list byte) (e : error)
  (rest : list (ionType * (list byte * option error)))
  (rd rd' : R) (out : W) (fuel : nat) :
  items Next Type' ByteValue rd
    (map blob front ++ (BlobType, (val, Some e)) :: rest) rd' ->
  (length front < fuel)%nat ->
  exists e' rdx,
    extract Next Type' ByteValue Write fuel rd out
    = Some (Some e', rdx, snd (writeAll Write out front)) /\
    (fst (writeAll Write out front) = None -> e' = e) /\
    (forall e'', fst (writeAll Write out front) = Some e'' -> e' = e'').
Proof.
  intros Hits Hfuel.
  destruct (extract_blobs _ _ Next Type' ByteValue Write front rd rd'
              _ out fuel Hits Hfuel)
    as [(e1 & rdx & He & Hrun) | (rd1 & He & Htail & Hrun)].
  - exists e1, rdx. rewrite He. repeat split; congruence.
  - apply (items_cons_inv _ Next Type' ByteValue) in Htail
      as (rd2 & HNext & Hty & Hval & _).
    exists e, rd2. rewrite Hrun, He.
    destruct (fuel - length front)%nat as [|left] eqn:Hleft; [lia|].
    cbn [extract]. rewrite HNext, Hty, Hval. cbn [ionType_eqb negb].
    repeat split; congruence.
Qed.

(** X11: when the writer refuses a blob, [extract] returns the
    writer's error at once: the blobs before it have been written, the
    writer is as the refused write left it, and the values after the
    refused blob are still in the reader, [Next] not having been
    called again. *)
Theorem extract_refused_write_leaves_rest (front : list (list byte))
  (b : list byte) (back : list (list byte))
  (tail : list (ionType * (list byte * option error)))
  (rd rd' : R) (out out' : W) (k : Z) (e : error) (fuel : nat) :
  items Next Type' ByteValue rd (map blob (front ++ b :: back) ++ tail) rd' ->
  fst (writeAll Write out front) = None ->
  Write (snd (writeAll Write out front)) b = ((k, Some e), out') ->
  (length front < fuel)%nat ->
  exists rdx,
    extract Next Type' ByteValue Write fuel rd out = Some (Some e, rdx, out') /\
    items Next Type' ByteValue rdx (map blob back ++ tail) rd'.
Proof.
  intros Hits Hfront Hwrite Hfuel.
  rewrite map_app, <- app_assoc in Hits. cbn [map app] in Hits.
  destruct (extract_blobs _ _ Next Type' ByteValue Write front rd rd'
              _ out fuel Hits Hfuel)
    as [(e1 & rdx & He & _) | (rd1 & _ & Htail & Hrun)]; [congruence|].
  unfold blob at 1 in Htail.
  apply (items_cons_inv _ Next Type' ByteValue) in Htail
    as (rd2 & HNext & Hty & Hval & Hrest).
  exists rd2. split; [|exact Hrest]. rewrite Hrun.
  destruct (fuel - length front)%nat as [|left] eqn:Hleft; [lia|].
  cbn [extract]. rewrite HNext, Hty, Hval. cbn [ionType_eqb negb].
  now rewrite Hwrite.
Qed.

End Extract.

Lemma extract_returns_ByteValue_error_witness :
  exists e' rdx,
    extract scriptNext scriptType scriptByteValue bufWrite 2
      (openScript (map blob [[Byte.x01]]
                   ++ (BlobType, ([], Some (ErrLib 5)))
                      :: [blob [Byte.x02; Byte.x03]])
                  None) []
    = Some (Some e', rdx, snd (writeAll bufWrite [] [[Byte.x01]])) /\
    (fst (writeAll bufWrite [] [[Byte.x01]]) = None -> e' = ErrLib 5) /\
    (forall e'', fst (writeAll bufWrite [] [[Byte.x01]]) = Some e'' -> e' = e'').
Proof.
  apply (extract_returns_ByteValue_error script (list byte)
           scriptNext scriptType scriptByteValue bufWrite
           [[Byte.x01]] [] (ErrLib 5) [blob [Byte.x02; Byte.x03]]
           _ (mkScript [] None None None)).
  - apply script_items.
  - cbn. lia.
Defined.

Lemma extract_refused_write_leaves_rest_witness :
  exists rdx,
    extract scriptNext scriptType scriptByteValue (capWrite 1) 2
      (openScript (map blob ([[Byte.x01]] ++ [Byte.x02; Byte.x03] :: [[Byte.x04]])
                   ++ [])
                  None) []
    = Some (Some (ErrLib 1), rdx, [Byte.x01]) /\
    items scriptNext scriptType scriptByteValue rdx
      (map blob [[Byte.x04]] ++ []) (mkScript [] None None None).
Proof.
  apply (extract_refused_write_leaves_rest script (list byte)
           scriptNext scriptType scriptByteValue (capWrite 1)
           [[Byte.x01]] [Byte.x02; Byte.x03] [[Byte.x04]] []
           _ (mkScript [] None None None) [] [Byte.x01] 0 (ErrLib 1)).
  - apply script_items.
  - reflexivity.
  - reflexivity.
  - cbn. lia.
Defined.

End ExtractErrors.

(** ** TextRenderer: the errors of the encoder *)

Module DumpErrors.
Import Dump GoFacts DumpSpec.

Section Dump.

Variables V D E : Type.
Variable Decode : D -> (V + error) * D.
Variable Encode : E -> V -> option error * E.
Variable Finish : E -> option error * E.

Lemma dump_refused (front : list V) :
  forall (dec dec' : D) (enc enc1 enc2 : E) (val : V) (back : list V)
         (err e : error) (calls : list (encCall V)) (fuel : nat),
    decodes Decode dec (front ++ val :: back) err dec' ->
    encodeAll Encode enc front = Some enc1 ->
    Encode enc1 val = (Some e, enc2) ->
    (length front < fuel)%nat ->
    exists dec1,
      dump Decode Encode Finish fuel dec enc calls
      = Some (Some e, dec1, enc2,
              calls ++ map CallEncode front ++ [CallEncode val]) /\
      decodes Decode dec1 back err dec'.
Proof.
  induction front as [|v front IH];
    intros dec dec' enc enc1 enc2 val back err e calls fuel
      Hdec Henc Hval Hfuel;
    (destruct fuel as [|fuel]; [cbn in Hfuel; lia|]);
    cbn [app] in Hdec;
    inversion Hdec as [|? ? dec1 ? ? ? Hstep Hrest]; subst;
    cbn [dump encodeAll map app] in *; rewrite Hstep.
  - injection Henc as <-. rewrite Hval. exists dec1. auto.
  - destruct (Encode enc v) as [[e0|] enc0]; [discriminate|].
    destruct (IH dec1 dec' enc0 enc1 enc2 val back err e
                (calls ++ [CallEncode v]) fuel Hrest Henc Hval
                ltac:(cbn in Hfuel; lia))
      as (decx & -> & Hback).
    exists decx. split; [|exact Hback]. now rewrite <- app_assoc.
Qed.

(** X12: when [Encode] fails on a value, [dump] returns that error at
    once: the values before it have been encoded in order, [Finish] is
    not called, and the values after it are still in the decoder,
    [Decode] not having been called again. *)
Theorem dump_returns_Encode_error
  (front : list V) (val : V) (back : list V)
  (dec dec' : D) (enc enc1 enc2 : E) (err e : error) (fuel : nat) :
  decodes Decode dec (front ++ val :: back) err dec' ->
  encodeAll Encode enc front = Some enc1 ->
  Encode enc1 val = (Some e, enc2) ->
  (length front < fuel)%nat ->
  exists dec1,
    dump Decode Encode Finish fuel dec enc []
    = Some (Some e, dec1, enc2, map CallEncode front ++ [CallEncode val]) /\
    decodes Decode dec1 back err dec' /\
    filter isFinish (map CallEncode front ++ [CallEncode val]) = [].
Proof.
  intros Hdec Henc Hval Hfuel.
  destruct (dump_refused front dec dec' enc enc1 enc2 val back err e []
              fuel Hdec Henc Hval Hfuel) as (dec1 & Hrun & Hback).
  exists dec1. split; [exact Hrun|]. split; [exact Hback|].
  rewrite filter_app, no_finish_among_encodes. reflexivity.
Qed.

End Dump.

Lemma dump_returns_Encode_error_witness :
  exists dec1,
    dump scriptDecode (Encoders.pickyEncode 13) logFinish 2
      (map inl ([7] ++ 13 :: [9])%nat) ([], false) []
    = Some (Some (ErrLib 4), dec1, ([7%nat], false),
            map CallEncode [7%nat] ++ [CallEncode 13%nat]) /\
    decodes scriptDecode dec1 [9%nat] ErrNoInput [] /\
    filter isFinish (map CallEncode [7%nat] ++ [CallEncode 13%nat]) = [].
Proof.
  apply (dump_returns_Encode_error nat (list (nat + error)) (list nat * bool)
           scriptDecode (Encoders.pickyEncode 13) logFinish
           [7%nat] 13%nat [9%nat] _ [] ([], false) ([7%nat], false)).
  - apply (script_decodes ([7] ++ 13 :: [9])%nat).
  - reflexivity.
  - reflexivity.
  - cbn. lia.
Defined.

End DumpErrors.

(** ** TrailerSizer: failures and short objects *)

Module TrailerEdges.
Import Trailer GoFacts TrailerSpec.

(** X13: [sizeWithoutTrailer] never panics, and it fails in three
    cases only: the object cannot be opened (the process exits), [Stat]
    fails, or the read of the last four bytes returns an error other
    than [io.EOF]; when it returns an error, the length beside it is
    -1. *)
Theorem sizeWithoutTrailer_fails_iff (got : Object + error) :
  sizeWithoutTrailer got <> Panicked /\
  (fails (sizeWithoutTrailer got) <->
   match got with
   | inr _ => True
   | inl obj =>
       match Stat obj with
       | inr _ => True
       | inl size =>
           exists e,
             io_err (ReadAt obj make4 (sub64 size 4)) = Some e /\ e <> EOF
       end
   end) /\
  (forall v e, sizeWithoutTrailer got = Returned v (Some e) -> v = -1).
Proof.
  split; [apply sizeWithoutTrailer_no_panic|].
  destruct got as [obj | err]; cbn [sizeWithoutTrailer fails];
    [|split; [tauto | discriminate]].
  destruct (Stat obj) as [size | err]; cbn [fails];
    [|split; [tauto | now intros v e [= <- _]]].
  cbv zeta.
  destruct (Uint32_four (written make4 (ReadAt obj make4 (sub64 size 4))))
    as [offset ->]; [now rewrite written_length|].
  destruct (io_err (ReadAt obj make4 (sub64 size 4))) as [err|] eqn:Herr.
  - destruct (error_eqb err EOF) eqn:Heof; cbn [negb fails].
    + apply error_eqb_eq in Heof. subst err. split; [|discriminate].
      split; [tauto|]. intros (e & [= <-] & Hne). congruence.
    + apply error_eqb_neq in Heof. split; [|now intros v e [= <- _]].
      split; [|tauto]. intros _. now exists err.
  - cbn [fails]. split; [|discriminate].
    split; [tauto|]. intros (e & Hsome & _). discriminate.
Qed.

(** X14: an object of fewer than four bytes is not turned away: when
    [Stat] reports its size and the read returns [nil] or [io.EOF],
    the function returns a nil error and a negative length. *)
Theorem sizeWithoutTrailer_short_object (obj : Object) (size : Z) :
  Stat obj = inl size ->
  0 <= size < 4 ->
  (io_err (ReadAt obj make4 (size - 4)) = None \/
   io_err (ReadAt obj make4 (size - 4)) = Some EOF) ->
  exists v, sizeWithoutTrailer (inl obj) = Returned v None /\ v < 0.
Proof.
  intros Hstat Hsize Herr.
  assert (Hat : sub64 size 4 = size - 4)
    by (apply sub64_small; unfold in_int64; lia).
  rewrite <- Hat in Herr.
  destruct (Uint32_four (written make4 (ReadAt obj make4 (sub64 size 4))))
    as [offset Hoff]; [now rewrite written_length|].
  pose proof (Uint32_range _ _ Hoff) as Hrange.
  exists (size - offset - 4).
  rewrite (sizeWithoutTrailer_decodes obj size offset Hstat Herr Hoff).
  rewrite (sub64_small size offset) by (unfold in_int64; lia).
  rewrite sub64_small by (unfold in_int64; lia).
  split; [reflexivity | lia].
Qed.

Lemma sizeWithoutTrailer_short_object_witness :
  exists v,
    sizeWithoutTrailer (inl (memObject [Byte.x05; Byte.x06]))
    = Returned v None /\ v < 0.
Proof.
  apply (sizeWithoutTrailer_short_object (memObject [Byte.x05; Byte.x06]) 2).
  - reflexivity.
  - lia.
  - right. reflexivity.
Defined.

End TrailerEdges.

(** ** HeaderSynthesizer over any source that delivers a content *)

Module ServedSpec.
Import BVM Served GoFacts BVMSpec.

Section Served.

Variable S : Type.
Variable srcRead : S -> list byte -> ioResult * S.
Variable serves : S -> list byte -> Prop.
Hypothesis serves_call : serving srcRead serves.

Lemma Read_fresh_marker (s : S) (m k : nat) :
  (m < 4)%nat -> (k <= 4 - m)%nat ->
  exists res,
    Read srcRead (mkBVM s (Z.of_nat m)) (repeat Byte.x00 k)
    = Some (res, mkBVM s (Z.of_nat (m + k))) /\
    io_err res = None /\
    reported res = firstn k (skipn m bvm).
Proof.
  intros Hm Hk.
  rewrite Read_marker by (unfold len; cbn [n]; rewrite ?repeat_length; lia).
  cbn [n r]. unfold len. rewrite repeat_length, Nat2Z.id, <- Nat2Z.inj_add.
  eexists. split; [reflexivity|]. split; [reflexivity|].
  rewrite <- (app_nil_r (firstn k (skipn m bvm))) at 1.
  apply reported_prefix. unfold len.
  rewrite length_firstn, length_skipn. cbn [bvm length]. lia.
Qed.

Lemma Read_fresh_boundary (s s' : S) (m k j : nat) (res : ioResult) :
  (m < 4)%nat -> (4 - m < k)%nat -> fits k = true ->
  call srcRead s (skipn (4 - m) (repeat Byte.x00 k)) = (res, s') ->
  io_n res = Z.of_nat j -> (j <= k - (4 - m))%nat ->
  exists out,
    Read srcRead (mkBVM s (Z.of_nat m)) (repeat Byte.x00 k)
    = Some (out, mkBVM s' 4) /\
    io_err out = io_err res /\
    (io_err res = None ->
     reported out = skipn m bvm ++ firstn j (io_buf res)).
Proof.
  intros Hm Hk Hfits Hcall Hcount Hj.
  unfold fits in Hfits. apply Z.ltb_lt in Hfits.
  assert (Hn : 0 <= n (mkBVM s (Z.of_nat m)) < 4) by (cbn [n]; lia).
  assert (Hp : 4 - n (mkBVM s (Z.of_nat m)) < len (repeat Byte.x00 k))
    by (unfold len; cbn [n]; rewrite repeat_length; lia).
  assert (Hcall' : call srcRead (r (mkBVM s (Z.of_nat m)))
                     (skipn (Z.to_nat (4 - n (mkBVM s (Z.of_nat m))))
                        (repeat Byte.x00 k)) = (res, s')).
  { cbn [r n]. now replace (Z.to_nat (4 - Z.of_nat m)) with (4 - m)%nat by lia. }
  rewrite (Read_boundary _ _ _ _ _ _ Hn Hp Hcall').
  cbn [n]. rewrite Nat2Z.id.
  eexists. split; [reflexivity|]. split; [reflexivity|].
  intros Herr. rewrite Herr, Hcount.
  rewrite add64_small by (unfold in_int64; lia).
  unfold reported. cbn [io_n io_buf].
  pose proof (marker_left m ltac:(lia)) as Hleft.
  rewrite firstn_app, firstn_all2 by lia. do 2 f_equal. lia.
Qed.

(** What [readAll] collects from the count [m] and a source with [c]
    still to deliver. *)
Lemma readAll_served (sizes : list nat) :
  forall (m : nat) (s : S) (c acc : list byte),
    (m <= 4)%nat ->
    serves s c ->
    forallb fits sizes = true ->
    boundary_error srcRead sizes (mkBVM s (Z.of_nat m)) = false ->
    exists j err rd',
      readAll srcRead sizes (mkBVM s (Z.of_nat m)) acc
      = Some (acc ++ firstn j (skipn m bvm ++ c), err, rd') /\
      (j <= 4 - m + length c)%nat /\
      (err <> None -> j = (4 - m + length c)%nat) /\
      (progressing srcRead serves ->
       (Nat.min (nonempty_reads sizes) (4 - m + length c) <= j)%nat).
Proof.
  induction sizes as [|k sizes IH]; intros m s c acc Hm Hserves Hfits Hclean.
  - exists 0%nat, None, (mkBVM s (Z.of_nat m)).
    cbn [readAll firstn nonempty_reads filter length]. rewrite app_nil_r.
    repeat split; try lia. congruence.
  - cbn [forallb] in Hfits. apply andb_prop in Hfits as [Hk Hfits].
    cbn [readAll]. cbn [boundary_error] in Hclean.
    assert (Hcount : nonempty_reads (k :: sizes)
                     = ((if (0 <? k)%nat then 1 else 0) + nonempty_reads sizes)%nat).
    { unfold nonempty_reads. cbn [filter].
      destruct (0 <? k)%nat; reflexivity. }
    rewrite Hcount. clear Hcount.
    destruct (Nat.eq_dec m 4) as [-> | Hm4].
    + (* the marker is used up: the read is the source's *)
      change (Z.of_nat 4) with 4 in *.
      change (skipn 4 bvm) with (@nil byte). cbn [app].
      rewrite Read_through in * by (cbn [n]; lia). cbn [r n] in *.
      destruct (serves_call s c (repeat Byte.x00 k) Hserves)
        as (j & Hjp & Hjc & Hn & Hbytes & Hnext & Hlast).
      destruct (call srcRead s (repeat Byte.x00 k)) as [res s'] eqn:Hcall.
      cbn [fst snd] in Hn, Hbytes, Hnext, Hlast.
      assert (Hrep : reported res = firstn j c)
        by (unfold reported; now rewrite Hn, Nat2Z.id).
      rewrite Hrep.
      destruct (io_err res) as [e|] eqn:Herr.
      * exists j, (Some e), (mkBVM s' 4).
        specialize (Hlast ltac:(discriminate)).
        repeat split; try lia.
      * destruct (IH 4%nat s' (skipn j c) (acc ++ firstn j c)
                    ltac:(lia) Hnext Hfits Hclean)
          as (j' & err & rd' & Hrun & Hle & Hend & Hprog).
        change (Z.of_nat 4) with 4 in Hrun.
        change (skipn 4 bvm) with (@nil byte) in Hrun. cbn [app] in Hrun.
        rewrite length_skipn in Hle, Hend, Hprog.
        exists (j + j')%nat, err, rd'. rewrite Hrun. split; [|split; [|split]].
        -- rewrite <- app_assoc. do 3 f_equal.
           rewrite (firstn_split_min j j' c). now rewrite Nat.min_l by lia.
        -- lia.
        -- intros He. specialize (Hend He). lia.
        -- intros Hgo. specialize (Hprog Hgo).
           destruct (Nat.ltb_spec 0 k) as [Hpos | Hzero]; [|lia].
           destruct c as [|b c]; [cbn [length] in *; lia|].
           specialize (Hgo s (b :: c) (repeat Byte.x00 k) Hserves
                         ltac:(discriminate)
                         ltac:(destruct k; [lia | discriminate])).
           rewrite Hcall in Hgo. cbn [fst] in Hgo. lia.
    + destruct (le_gt_dec k (4 - m)) as [Hshort | Hlong].
      * (* inside the marker *)
        destruct (Read_fresh_marker s m k ltac:(lia) Hshort)
          as (res & HRead & Herr & Hrep).
        rewrite HRead, Herr in *. rewrite Hrep.
        destruct (IH (m + k)%nat s c (acc ++ firstn k (skipn m bvm))
                    ltac:(lia) Hserves Hfits Hclean)
          as (j' & err & rd' & Hrun & Hle & Hend & Hprog).
        exists (k + j')%nat, err, rd'. rewrite Hrun. split; [|split; [|split]].
        -- rewrite (stream_after_marker m k j' c) by lia.
           now rewrite app_assoc.
        -- lia.
        -- intros He. specialize (Hend He). lia.
        -- intros Hgo. specialize (Hprog Hgo).
           destruct (0 <? k)%nat eqn:Hpos; [apply Nat.ltb_lt in Hpos|]; lia.
      * (* across the end of the marker *)
        destruct (serves_call s c (skipn (4 - m) (repeat Byte.x00 k)) Hserves)
          as (j & Hjp & Hjc & Hn & Hbytes & Hnext & Hlast).
        rewrite length_skipn, repeat_length in Hjp.
        destruct (call srcRead s (skipn (4 - m) (repeat Byte.x00 k)))
          as [res s'] eqn:Hcall.
        cbn [fst snd] in Hn, Hbytes, Hnext, Hlast.
        destruct (Read_fresh_boundary s s' m k j res ltac:(lia) Hlong Hk
                    Hcall Hn Hjp) as (out & HRead & Herr & Hrep).
        rewrite HRead, Herr in *. cbn [n] in Hclean.
        destruct (io_err res) as [e|] eqn:Hres.
        -- destruct (Z.ltb_spec (Z.of_nat m) 4); [discriminate | lia].
        -- rewrite (Hrep eq_refl), Hbytes.
           destruct (IH 4%nat s' (skipn j c)
                       (acc ++ skipn m bvm ++ firstn j c)
                       ltac:(lia) Hnext Hfits Hclean)
             as (j' & err & rd' & Hrun & Hle & Hend & Hprog).
           change (Z.of_nat 4) with 4 in Hrun.
           change (skipn 4 bvm) with (@nil byte) in Hrun. cbn [app] in Hrun.
           rewrite length_skipn in Hle, Hend, Hprog.
           pose proof (marker_left m ltac:(lia)) as Hleft.
           exists (4 - m + (j + j'))%nat, err, rd'. rewrite Hrun.
           split; [|split; [|split]].
           ++ rewrite firstn_app, Hleft.
              rewrite (@firstn_all2 _ (4 - m + (j + j')) (skipn m bvm)) by lia.
              replace (4 - m + (j + j') - (4 - m))%nat with (j + j')%nat by lia.
              rewrite (firstn_split_min j j' c), Nat.min_l by lia.
              now rewrite !app_assoc.
           ++ lia.
           ++ intros He. specialize (Hend He). lia.
           ++ intros Hgo. specialize (Hprog Hgo).
              destruct (0 <? k)%nat; lia.
Qed.

(** Past the marker no [Read] counts as begun inside it. *)
Lemma boundary_error_past (sizes : list nat) :
  forall s : S, boundary_error srcRead sizes (mkBVM s 4) = false.
Proof.
  induction sizes as [|k sizes IH]; intros s; cbn [boundary_error];
    [reflexivity|].
  rewrite Read_through by (cbn [n]; lia). cbn [r n].
  destruct (call srcRead s (repeat Byte.x00 k)) as [res s'].
  destruct (io_err res); [reflexivity | apply IH].
Qed.

(** For a source that returns an error only when it has nothing left,
    no read across the end of the marker meets an error when there is
    content, or when no read goes across. *)
Lemma boundary_error_lazy (sizes : list nat) :
  (forall s c p, serves s c ->
                 io_err (fst (call srcRead s p)) <> None -> c = []) ->
  forall (m : nat) (s : S) (c : list byte),
    (m <= 4)%nat ->
    serves s c ->
    c <> [] \/ straddles m sizes = false ->
    boundary_error srcRead sizes (mkBVM s (Z.of_nat m)) = false.
Proof.
  intros Hlazy.
  induction sizes as [|k sizes IH]; intros m s c Hm Hserves Hsrc;
    [reflexivity|].
  destruct (Nat.eq_dec m 4) as [-> | Hm4]; [apply boundary_error_past|].
  cbn [boundary_error].
  destruct (le_gt_dec k (4 - m)) as [Hshort | Hlong].
  - destruct (Read_fresh_marker s m k ltac:(lia) Hshort)
      as (res & -> & -> & _).
    apply (IH (m + k)%nat s c); [lia | exact Hserves|].
    destruct Hsrc as [Hc | Hno]; [now left | right].
    now rewrite <- (straddles_within m k sizes) by lia.
  - assert (Hc : c <> []).
    { destruct Hsrc as [Hc | Hno]; [exact Hc|].
      rewrite straddles_across in Hno by lia. discriminate. }
    assert (Hn : 0 <= n (mkBVM s (Z.of_nat m)) < 4) by (cbn [n]; lia).
    assert (Hp : 4 - n (mkBVM s (Z.of_nat m)) < len (repeat Byte.x00 k))
      by (unfold len; cbn [n]; rewrite repeat_length; lia).
    destruct (call srcRead (r (mkBVM s (Z.of_nat m)))
                (skipn (Z.to_nat (4 - n (mkBVM s (Z.of_nat m))))
                   (repeat Byte.x00 k))) as [res s'] eqn:Hcall.
    rewrite (Read_boundary _ _ _ _ _ _ Hn Hp Hcall). cbn [io_err].
    destruct (io_err res) as [e|] eqn:Herr; [|apply boundary_error_past].
    exfalso. apply Hc. cbn [r] in Hcall.
    eapply (Hlazy s c); [exact Hserves|].
    rewrite Hcall. cbn [fst]. congruence.
Qed.

(** C2, amended: for every wrapped source that delivers the content in
    order, in reads of whatever size, and returns an error only with
    or after its last byte, and for every sequence of buffer sizes,
    provided no error comes back from a [Read] begun before the end of
    the marker (that is, from the source read of a [Read] that
    straddles it): what the caller has collected is always the
    beginning of the marker followed by the content, and it is the
    whole of it once a [Read] has returned an error, the end of the
    stream.  It is the whole of it, too, after as many reads with a
    buffer that is not empty as the marker and the content have bytes,
    when the source gives at least one byte to each such read while
    content is left. *)
Theorem readAll_marker_then_served
  (s0 : S) (content : list byte) (sizes : list nat) :
  serves s0 content ->
  forallb fits sizes = true ->
  boundary_error srcRead sizes (newBVMReader s0) = false ->
  exists out err rd',
    readAll srcRead sizes (newBVMReader s0) [] = Some (out, err, rd') /\
    out = firstn (length out) (bvm ++ content) /\
    (err <> None -> out = bvm ++ content) /\
    (progressing srcRead serves ->
     (4 + length content <= nonempty_reads sizes)%nat ->
     out = bvm ++ content).
Proof.
  intros Hserves Hfits Hclean.
  destruct (readAll_served sizes 0%nat s0 content [] ltac:(lia)
              Hserves Hfits Hclean)
    as (j & err & rd' & Hrun & Hle & Hend & Hprog).
  change (skipn 0 bvm) with bvm in Hrun. cbn [app] in Hrun.
  assert (Hwhole : length (bvm ++ content) = (4 + length content)%nat)
    by (rewrite length_app; reflexivity).
  exists (firstn j (bvm ++ content)), err, rd'.
  split; [exact Hrun|]. split; [|split].
  - rewrite length_firstn, Hwhole. f_equal. lia.
  - intros He. apply firstn_all2. specialize (Hend He). lia.
  - intros Hgo Hreads. apply firstn_all2. specialize (Hprog Hgo). lia.
Qed.

End Served.

(** *** Sources of that kind *)

Lemma oneRead_serving : serving oneRead eq.
Proof.
  intros s c p <-. unfold call.
  destruct s as [|b s]; [|destruct p as [|x p]].
  - exists 0%nat. cbn. repeat split; auto with arith.
  - exists 0%nat. cbn. repeat split; auto with arith. congruence.
  - exists 1%nat. cbn. repeat split; auto with arith. congruence.
Qed.

Lemma oneRead_progressing : progressing oneRead eq.
Proof.
  intros s c p <- Hc Hp. unfold call.
  destruct s as [|b s]; [congruence|].
  destruct p as [|x p]; [congruence|]. cbn. lia.
Qed.

Lemma bytesRead_serving : serving bytesRead eq.
Proof.
  intros s c p <-. destruct s as [|b s].
  - rewrite call_bytesRead_empty. exists 0%nat. cbn.
    repeat split; auto with arith.
  - rewrite call_bytesRead_some by discriminate. cbn [fst snd io_n io_buf io_err].
    exists (Nat.min (length p) (length (b :: s))).
    repeat split; try lia; try congruence.
    rewrite firstn_app, length_firstn.
    replace (Nat.min (length p) (length (b :: s))
             - Nat.min (Nat.min (length p) (length (b :: s))) (length (b :: s)))%nat
      with 0%nat by lia.
    cbn [firstn]. rewrite app_nil_r. now rewrite firstn_firstn, Nat.min_id.
Qed.

(** A source that returns its error with the last bytes is of that
    kind too. *)
Lemma endRead_serving (e : error) : serving (endRead e) eq.
Proof.
  intros s c p <-. unfold call, endRead, copy. cbv zeta.
  cbn [fst snd io_n io_buf io_err].
  exists (Nat.min (length p) (length s)).
  rewrite Nat2Z.id, written_same
    by (rewrite length_app, length_firstn, length_skipn; lia).
  repeat split; try lia.
  - rewrite firstn_app, length_firstn.
    replace (Nat.min (length p) (length s)
             - Nat.min (Nat.min (length p) (length s)) (length s))%nat
      with 0%nat by lia.
    cbn [firstn]. rewrite app_nil_r. now rewrite firstn_firstn, Nat.min_id.
  - unfold len. destruct (Z.leb_spec (Z.of_nat (length s)) (Z.of_nat (length p)));
      [lia | congruence].
Qed.

Lemma readAll_marker_then_served_witness :
  exists out err rd',
    readAll oneRead [8; 8; 8; 8]%nat (newBVMReader content3) []
    = Some (out, err, rd') /\
    out = firstn (length out) (bvm ++ content3) /\
    (err <> None -> out = bvm ++ content3) /\
    (progressing oneRead eq ->
     (4 + length content3 <= nonempty_reads [8; 8; 8; 8]%nat)%nat ->
     out = bvm ++ content3).
Proof.
  apply (readAll_marker_then_served (list byte) oneRead eq oneRead_serving
           content3 content3 [8; 8; 8; 8]%nat).
  - reflexivity.
  - reflexivity.
  - reflexivity.
Defined.

(** A source that gives one byte at a time: the first read of eight
    brings the marker and one byte, and the end of the stream is told
    at the fourth, all of the content having come. *)
Example readAll_one_byte_at_a_time :
  readAll oneRead [8]%nat (newBVMReader content3) []
  = Some (bvm ++ [Byte.x11], None, mkBVM [Byte.x12; Byte.x13] 4) /\
  readAll oneRead [8; 8; 8; 8]%nat (newBVMReader content3) []
  = Some (bvm ++ content3, Some EOF, mkBVM [] 4).
Proof. split; reflexivity. Qed.

(** The empty source read with a buffer of eight is a run on which an
    error comes back from the read across the end of the marker. *)
Example boundary_error_on_empty_source :
  boundary_error bytesRead [8]%nat (newBVMReader []) = true.
Proof. reflexivity. Qed.

End ServedSpec.
